(** * A shallow embedding of the Tetris rule engine (src/util.ts, src/state.ts)

    The engine is a set of pure functions over an immutable [State]; each
    one is transcribed below next to the name it has in the TypeScript
    source.  Conventions of the embedding:

    - a JS [number] that holds an integer is a [Z].  Every arithmetic
      operation of the engine except the multiplication inside [RNG.hash]
      stays far below 2^53, where IEEE-754 binary64 arithmetic on integers
      is exact; [RNG.hash] multiplies by 1103515245 and does leave that
      range, so its two roundings are written out ([round_double]);
    - a grid cell is [option string]: [None] is JS [null], [Some c] the
      colour string.  Truthiness is the JS one (the empty string is falsy);
    - an array is a [list]; reading an index that is not there yields
      [undefined], which is [None] of an [option];
    - reading a property of [undefined] throws a [TypeError]; functions
      that can do so return a [result];
    - [Drop.findNewY] is a recursion without a bound in the source; it is
      given fuel, and [OutOfFuel] is the outcome of a call that has not
      returned after that many nested calls. *)

From Stdlib Require Import ZArith List String Bool Lia Arith.
Import ListNotations.

#[local] Open Scope string_scope.
#[local] Open Scope list_scope.
#[local] Open Scope Z_scope.

(** ** Outcomes of a call *)

Inductive result (A : Type) : Type :=
| Ok (a : A)
| TypeError
| OutOfFuel.

Arguments Ok {A} a.
Arguments TypeError {A}.
Arguments OutOfFuel {A}.

Definition bind {A B : Type} (r : result A) (k : A -> result B) : result B :=
  match r with
  | Ok a => k a
  | TypeError => TypeError
  | OutOfFuel => OutOfFuel
  end.

Notation "x <- r ;; k" := (bind r (fun x => k))
  (at level 61, r at next level, right associativity).

(** ** Array helpers with the JavaScript behaviour *)

(** [arr[i]] for an integer [i]: [undefined] when [i] is negative or past
    the end. *)
Definition lookupZ {A : Type} (l : list A) (i : Z) : option A :=
  if i <? 0 then None else nth_error l (Z.to_nat i).

(** [arr.map((a, i) => f a i)], the index starting at [i0]. *)
Fixpoint mapi_from {A B : Type} (f : A -> nat -> B) (l : list A) (i0 : nat)
  : list B :=
  match l with
  | [] => []
  | a :: l' => f a i0 :: mapi_from f l' (S i0)
  end.

Definition mapi {A B : Type} (f : A -> nat -> B) (l : list A) : list B :=
  mapi_from f l 0.

(** [arr.some((a, i) => p a i)] where the callback may throw: elements are
    visited in order, the first truthy answer ends the visit, and so does
    the first exception. *)
Fixpoint some_from {A : Type} (p : A -> nat -> result bool) (l : list A)
  (i0 : nat) : result bool :=
  match l with
  | [] => Ok false
  | a :: l' =>
      match p a i0 with
      | Ok true => Ok true
      | Ok false => some_from p l' (S i0)
      | TypeError => TypeError
      | OutOfFuel => OutOfFuel
      end
  end.

Definition some {A : Type} (p : A -> nat -> result bool) (l : list A)
  : result bool :=
  some_from p l 0.

(** [arr.map] with a callback that may throw. *)
Fixpoint mapiM_from {A B : Type} (f : A -> nat -> result B) (l : list A)
  (i0 : nat) : result (list B) :=
  match l with
  | [] => Ok []
  | a :: l' =>
      b <- f a i0 ;;
      bs <- mapiM_from f l' (S i0) ;;
      Ok (b :: bs)
  end.

(** [arr.find(p)] with a callback that may throw. *)
Fixpoint findM {A : Type} (p : A -> result bool) (l : list A)
  : result (option A) :=
  match l with
  | [] => Ok None
  | a :: l' =>
      c <- p a ;;
      if c then Ok (Some a) else findM p l'
  end.

(** [arr.reduce((acc, a, i) => f acc a i, acc0)]. *)
Fixpoint reduce_from {A B : Type} (f : B -> A -> nat -> B) (l : list A)
  (i0 : nat) (acc : B) : B :=
  match l with
  | [] => acc
  | a :: l' => reduce_from f l' (S i0) (f acc a i0)
  end.

(** [arr.splice(y, 1)] for an index [y >= 0]: the element at [y] is taken
    out; nothing happens when [y] is past the end. *)
Definition splice1 {A : Type} (y : nat) (l : list A) : list A :=
  (firstn y l ++ skipn (S y) l).

(** ** types.ts *)

Definition Shape := list (list Z).
Definition Cell := option string.
Definition Grid := list (list Cell).

Record Block := mkBlock { shape : Shape; color : string }.

Module Constants.
Definition GRID_WIDTH : Z := 10.
Definition GRID_HEIGHT : Z := 20.
Definition STARTING_BLOCK_X : Z := 10 / 2 - 2.
Definition STARTING_LEVEL : Z := 1.
Definition TICK_RATE_MS : Z := 500.
Definition MIN_TICK_RATE_MS : Z := 100.
Definition TICK_RATE_DECREMENT_MS : Z := 100.
End Constants.

(** ** util.ts: the linear congruential generator *)

(** The binary64 value nearest to the integer [n] (ties to even), for
    [|n| < 2^1024]: integers below 2^53 in magnitude are representable;
    above, the 53 leading bits are kept and the rest is rounded. *)
Definition round_double (n : Z) : Z :=
  let a := Z.abs n in
  if a <? 2 ^ 53 then n
  else
    let e := Z.log2 a - 52 in
    let q := Z.shiftr a e in
    let r := a - Z.shiftl q e in
    let half := Z.shiftl 1 (e - 1) in
    let q' := if r <? half then q
              else if half <? r then q + 1
              else if Z.even q then q else q + 1 in
    Z.sgn n * Z.shiftl q' e.

Module RNG.

Record t := mk { seed : Z }.

Definition m : Z := 0x80000000.
Definition a : Z := 1103515245.
Definition c : Z := 12345.

(** [(RNG.a * seed + RNG.c) % RNG.m] on binary64 numbers: the product
    and the sum are each rounded, [%] is exact and takes the sign of
    the dividend. *)
Definition hash (seed : Z) : Z :=
  Z.rem (round_double (round_double (a * seed) + c)) m.

(** [Math.floor((7 * hash) / (RNG.m - 1))].  For [|hash| <= 2^31] the
    product is exact and the rounded quotient has the floor of the
    exact one (a non-integer quotient is at least [1/(m-1)] away from
    an integer, the rounding error is below [2^-49]). *)
Definition scale (hash : Z) : Z :=
  (7 * hash) / (m - 1).

Definition next (r : t) : t := mk (hash (seed r)).

Definition currentValue (r : t) : Z := scale (seed r).

(** [new RNG()]: the seed is the hash of [new Date().getMilliseconds()],
    here the argument [ms]. *)
Definition fresh (ms : Z) : t := mk (hash ms).

End RNG.

(** The recurrence the generator is named after, on integers. *)
Definition lcg (seed : Z) : Z := (RNG.a * seed + RNG.c) mod RNG.m.

Definition shapes : list Block :=
  [ mkBlock [[1; 1; 1; 1]; [0; 0; 0; 0]; [0; 0; 0; 0]; [0; 0; 0; 0]] "cyan";
    mkBlock [[1; 1]; [1; 1]] "yellow";
    mkBlock [[0; 1; 0]; [1; 1; 1]; [0; 0; 0]] "purple";
    mkBlock [[1; 0; 0]; [1; 1; 1]; [0; 0; 0]] "orange";
    mkBlock [[0; 0; 1]; [1; 1; 1]; [0; 0; 0]] "blue";
    mkBlock [[0; 1; 1]; [1; 1; 0]; [0; 0; 0]] "red";
    mkBlock [[1; 1; 0]; [0; 1; 1]; [0; 0; 0]] "green" ].

(** [randomBlock]: the block is [shapes[rng.currentValue()]], which is
    [undefined] ([None]) when the index is not one of 0..6. *)
Definition randomBlock (rng : RNG.t) : option Block * RNG.t :=
  (lookupZ shapes (RNG.currentValue rng), RNG.next rng).

(** [createRotationFunction(defaultRotationStrategy)]: the new cell
    [(i, j)] is [matrix[N - j][i]].  Reading [matrix[N - j]] where there is
    no such row throws; a cell read past the end of a row is [undefined],
    kept as [0] here because a shape cell is only ever tested for
    truthiness. *)
Definition defaultRotationStrategy (matrix : Shape) : result Shape :=
  let N := Z.of_nat (List.length matrix) - 1 in
  mapiM_from (fun row i =>
    mapiM_from (fun (_ : Z) j =>
      match lookupZ matrix (N - Z.of_nat j) with
      | None => TypeError
      | Some r =>
          Ok (match lookupZ r (Z.of_nat i) with Some v => v | None => 0 end)
      end) row 0) matrix 0.

Definition rotateMatrix (matrix : Shape) : result Shape :=
  defaultRotationStrategy matrix.

(** ** state.ts *)

(** [block] and [nextBlock] come out of [randomBlock] and are [None] when
    the catalogue lookup gave [undefined]. *)
Record State := mkState {
  block : option Block;
  blockX : Z;
  blockY : Z;
  grid : Grid;
  nextBlock : option Block;
  RNG : RNG.t;
  score : Z;
  level : Z;
  highScore : Z;
  gameEnd : bool
}.

(** Reading [s.block.shape]: a [TypeError] when the block is [undefined]. *)
Definition theBlock (s : State) : result Block :=
  match block s with
  | Some b => Ok b
  | None => TypeError
  end.

(** JS truthiness of a grid cell and of a shape cell. *)
Definition truthy (c : Cell) : bool :=
  match c with
  | Some col => negb (String.eqb col "")
  | None => false
  end.

Definition filled (cell : Z) : bool := negb (cell =? 0).

(** The callback of the inner [some] of [isCollision]. *)
Definition cellCollides (grid : Grid) (x y : Z) (rowIdx : nat) (cell : Z)
  (cellIdx : nat) : result bool :=
  if negb (filled cell) then Ok false
  else
    let gridX := x + Z.of_nat cellIdx in
    let gridY := y + Z.of_nat rowIdx in
    if (gridX <? 0) || (gridX >=? Constants.GRID_WIDTH)
       || (gridY <? 0) || (gridY >=? Constants.GRID_HEIGHT)
    then Ok true
    else
      match lookupZ grid gridY with
      | None => TypeError
      | Some gridRow =>
          Ok (match lookupZ gridRow gridX with
              | Some c => truthy c
              | None => false
              end)
      end.

Definition isCollision (grid : Grid) (block : Block) (x y : Z) : result bool :=
  some (fun row rowIdx => some (cellCollides grid x y rowIdx) row)
    (shape block).

Definition updateRow (block : Block) (x y : Z) (rowIdx : nat)
  (cell : Cell) (cellIdx : nat) : Cell :=
  match lookupZ (shape block) (Z.of_nat rowIdx - y) with
  | None => cell
  | Some shapeRow =>
      match lookupZ shapeRow (Z.of_nat cellIdx - x) with
      | None => cell
      | Some v => if filled v then Some (color block) else cell
      end
  end.

Definition updateGrid (grid : Grid) (block : Block) (x y : Z) : Grid :=
  mapi (fun row rowIdx => mapi (updateRow block x y rowIdx) row) grid.

Definition emptyRow : list Cell :=
  repeat None (Z.to_nat Constants.GRID_WIDTH).

Definition emptyGrid : Grid :=
  repeat emptyRow (Z.to_nat Constants.GRID_HEIGHT).

(** The module is loaded once; [ms] is what [new Date().getMilliseconds()]
    returned when [initial_RNG] was built. *)
Definition initial_RNG (ms : Z) : RNG.t := RNG.fresh ms.

Definition initialState (ms : Z) : State :=
  {| block := fst (randomBlock (initial_RNG ms));
     nextBlock := fst (randomBlock (snd (randomBlock (initial_RNG ms))));
     blockX := Constants.STARTING_BLOCK_X;
     blockY := 0;
     RNG := snd (randomBlock (snd (randomBlock (initial_RNG ms))));
     grid := emptyGrid;
     score := 0;
     level := Constants.STARTING_LEVEL;
     highScore := 0;
     gameEnd := false |}.

Inductive Direction := X | Y.

Definition moveBlock (s : State) (direction : Direction) (magnitude : Z)
  : Z * Z :=
  let newBlockX := blockX s + (match direction with X => magnitude | Y => 0 end) in
  let newBlockY := blockY s + (match direction with Y => magnitude | X => 0 end) in
  (newBlockX, newBlockY).

(** [grid[0].some(cell => cell)]: a grid without rows has no [grid[0]]. *)
Definition isGameEnd (grid : Grid) : result bool :=
  match grid with
  | [] => TypeError
  | row0 :: _ => Ok (existsb truthy row0)
  end.

(** The callback of [reduce] in [linesCleared]. *)
Definition collectFull (acc : list nat) (row : list Cell) (index : nat)
  : list nat :=
  if forallb truthy row then acc ++ [index] else acc.

Definition linesCleared (grid : Grid) : list nat :=
  reduce_from collectFull grid 0%nat [].

(** The callback of [forEach] in [updateGridAfterClearance]: [splice(y, 1)],
    then [unshift] of a row of [null]s. *)
Definition clearLine (newGrid : Grid) (y : nat) : Grid :=
  emptyRow :: splice1 y newGrid.

Definition updateGridAfterClearance (grid : Grid) (clearedLines : list nat)
  : Grid :=
  fold_left clearLine clearedLines grid.

Definition scoreUpdates (s : State) (clearedLineCount : Z) : Z * Z * Z :=
  let newScore := score s + clearedLineCount * 100 in
  let newLevel := newScore / 1000 + 1 in
  let newHighScore := Z.max newScore (highScore s) in
  (newScore, newLevel, newHighScore).

(** [{ ...s, gameEnd: true }] *)
Definition endGame (s : State) : State :=
  {| block := block s; blockX := blockX s; blockY := blockY s;
     grid := grid s; nextBlock := nextBlock s; RNG := RNG s;
     score := score s; level := level s; highScore := highScore s;
     gameEnd := true |}.

(** [{ ...s, blockX: x, blockY: y }] *)
Definition moveTo (s : State) (x y : Z) : State :=
  {| block := block s; blockX := x; blockY := y;
     grid := grid s; nextBlock := nextBlock s; RNG := RNG s;
     score := score s; level := level s; highScore := highScore s;
     gameEnd := gameEnd s |}.

(** The state [Move.apply] returns after a landing that does not end the
    game. *)
Definition landed (s : State) (newGrid : Grid) : State :=
  let clearedLines := linesCleared newGrid in
  let updatedGrid := updateGridAfterClearance newGrid clearedLines in
  let '(newScore, newLevel, newHighScore) :=
    scoreUpdates s (Z.of_nat (List.length clearedLines)) in
  {| block := nextBlock s;
     nextBlock := fst (randomBlock (RNG s));
     blockX := Constants.STARTING_BLOCK_X;
     blockY := 0;
     RNG := snd (randomBlock (RNG s));
     grid := updatedGrid;
     score := newScore;
     level := newLevel;
     highScore := newHighScore;
     gameEnd := gameEnd s |}.

Definition Move_apply (direction : Direction) (magnitude : Z) (s : State)
  : result State :=
  let '(newBlockX, newBlockY) := moveBlock s direction magnitude in
  b <- theBlock s ;;
  collision <- isCollision (grid s) b newBlockX newBlockY ;;
  if collision then
    if (match direction with Y => true | X => false end) && (magnitude >? 0)
    then
      let newGrid := updateGrid (grid s) b (blockX s) (blockY s) in
      ended <- isGameEnd newGrid ;;
      if ended then Ok (endGame s) else Ok (landed s newGrid)
    else Ok s
  else Ok (moveTo s newBlockX newBlockY).

Definition Restart_apply (ms : Z) (s : State) : State :=
  let i := initialState ms in
  {| block := block i; blockX := blockX i; blockY := blockY i;
     grid := grid i; nextBlock := nextBlock i;
     RNG := snd (randomBlock (RNG s));
     score := score i; level := level i;
     highScore := highScore s;
     gameEnd := gameEnd i |}.

Definition updateState (s : State) (rotatedBlock : Shape) (deltaX deltaY : Z)
  : State :=
  {| block := option_map (fun b => mkBlock rotatedBlock (color b)) (block s);
     blockX := blockX s + deltaX;
     blockY := blockY s + deltaY;
     grid := grid s; nextBlock := nextBlock s; RNG := RNG s;
     score := score s; level := level s; highScore := highScore s;
     gameEnd := gameEnd s |}.

Definition tryRotate (s : State) (rotatedBlock : Shape) (deltaX deltaY : Z)
  : result bool :=
  b <- theBlock s ;;
  collision <- isCollision (grid s) (mkBlock rotatedBlock (color b))
                 (blockX s + deltaX) (blockY s + deltaY) ;;
  Ok (negb collision).

Definition tryRotationOffsets (s : State) (rotatedBlock : Shape)
  (offsets : list (Z * Z)) : result (option (Z * Z)) :=
  findM (fun offset => tryRotate s rotatedBlock (fst offset) (snd offset))
    offsets.

Definition Rotate_apply (s : State) : result State :=
  b <- theBlock s ;;
  rotatedBlock <- rotateMatrix (shape b) ;;
  let offsets := [(0, 0); (1, 0); (-1, 0); (0, 1); (0, -1)] in
  validOffset <- tryRotationOffsets s rotatedBlock offsets ;;
  match validOffset with
  | Some o => Ok (updateState s rotatedBlock (fst o) (snd o))
  | None => Ok s
  end.

(** [Drop.findNewY], with [fuel] bounding the depth of the recursion. *)
Fixpoint findNewY (fuel : nat) (grid : Grid) (block : Block)
  (blockX blockY : Z) : result Z :=
  match fuel with
  | O => OutOfFuel
  | S fuel' =>
      collision <- isCollision grid block blockX (blockY + 1) ;;
      if collision then Ok blockY
      else findNewY fuel' grid block blockX (blockY + 1)
  end.

Definition Drop_apply (fuel : nat) (s : State) : result State :=
  b <- theBlock s ;;
  newY <- findNewY fuel (grid s) b (blockX s) (blockY s) ;;
  Move_apply Y (newY - blockY s) s.

(** The four classes that implement [Action], and [tick] of view.ts, which
    is [action.apply(s)]. *)
Inductive Action :=
| Move (direction : Direction) (magnitude : Z)
| Rotate
| Restart
| Drop.

Definition tick (ms : Z) (fuel : nat) (s : State) (action : Action)
  : result State :=
  match action with
  | Move direction magnitude => Move_apply direction magnitude s
  | Rotate => Rotate_apply s
  | Restart => Ok (Restart_apply ms s)
  | Drop => Drop_apply fuel s
  end.

(** [scan(tick, s)] over a finite list of actions. *)
Fixpoint run (ms : Z) (fuel : nat) (s : State) (actions : list Action)
  : result State :=
  match actions with
  | [] => Ok s
  | a :: rest => s' <- tick ms fuel s a ;; run ms fuel s' rest
  end.

(** The states the game can be in: the initial one and whatever an action
    returns from one of them. *)
Inductive reachable (ms : Z) : State -> Prop :=
| reach_init : reachable ms (initialState ms)
| reach_tick : forall s action fuel s',
    reachable ms s -> tick ms fuel s action = Ok s' -> reachable ms s'.

Definition isRestart (a : Action) : bool :=
  match a with Restart => true | _ => false end.


(** ** Vocabulary of the statements *)

(** A row that [linesCleared] reports: every cell is truthy. *)
Definition fullRow (row : list Cell) : bool := forallb truthy row.

(** The rows of [g] whose index, counted from [i0], is not in [rows], in
    the order they have in [g]. *)
Fixpoint keepRows {A : Type} (rows : list nat) (i0 : nat) (g : list A)
  : list A :=
  match g with
  | [] => []
  | r :: g' =>
      if existsb (Nat.eqb i0) rows then keepRows rows (S i0) g'
      else r :: keepRows rows (S i0) g'
  end.

(** Strictly ascending lists of indices. *)
Fixpoint ascending (rows : list nat) : Prop :=
  match rows with
  | [] => True
  | y :: rest => Forall (fun z => (y < z)%nat) rest /\ ascending rest
  end.

(** A shape with at least one filled cell. *)
Definition hasFilled (sh : Shape) : bool := existsb (existsb filled) sh.

(** A state as in scenario D: score 500 and high score 300. *)
Definition scenarioD : State :=
  {| block := block (initialState 1); blockX := 3; blockY := 0;
     grid := emptyGrid; nextBlock := nextBlock (initialState 1);
     RNG := RNG (initialState 1);
     score := 500; level := 1; highScore := 300; gameEnd := false |}.

(** The O piece at the top of a grid whose only stone is at row 2,
    column 3. *)
Definition stoneRow : list Cell :=
  [None; None; None; Some "cyan"; None; None; None; None; None; None].

Definition stoneGrid : Grid :=
  emptyRow :: emptyRow :: stoneRow :: repeat emptyRow 17.

Definition pieceO : Block := mkBlock [[1; 1]; [1; 1]] "yellow".

Definition blockedAtTop : State :=
  {| block := Some pieceO; blockX := 3; blockY := 0;
     grid := stoneGrid; nextBlock := Some pieceO;
     RNG := RNG.mk 1;
     score := 0; level := 1; highScore := 0; gameEnd := false |}.

(** The O piece at the top of the empty grid. *)
Definition freshO : State :=
  {| block := Some pieceO; blockX := 3; blockY := 0;
     grid := emptyGrid; nextBlock := Some pieceO;
     RNG := RNG.mk 1;
     score := 0; level := 1; highScore := 0; gameEnd := false |}.

(** [y] is the largest ordinate, from the piece's own on, with a collision
    one step further down. *)
Definition largestColliding (s : State) (b : Block) (y : Z) : Prop :=
  blockY s <= y /\
  isCollision (grid s) b (blockX s) (y + 1) = Ok true /\
  forall z, blockY s <= z ->
    isCollision (grid s) b (blockX s) (z + 1) = Ok true -> z <= y.

(** [y] is the first ordinate, from the piece's own on, with a collision
    one step further down: where walking down stops. *)
Definition firstColliding (s : State) (b : Block) (y : Z) : Prop :=
  blockY s <= y /\
  isCollision (grid s) b (blockX s) (y + 1) = Ok true /\
  forall z, blockY s <= z < y ->
    isCollision (grid s) b (blockX s) (z + 1) = Ok false.

(** A grid whose rows 17 and 19 are full. *)
Definition cyanRow : list Cell := repeat (Some "cyan") 10.

Definition twoFullGrid : Grid :=
  repeat emptyRow 17 ++ [cyanRow; stoneRow; cyanRow].

(** A grid whose two bottom rows lack their two leftmost cells, and the O
    piece resting on the floor in that gap. *)
Definition holeRow : list Cell := None :: None :: repeat (Some "cyan") 8.

Definition holeGrid : Grid := repeat emptyRow 18 ++ [holeRow; holeRow].

Definition restingO : State :=
  {| block := Some pieceO; blockX := 0; blockY := 18;
     grid := holeGrid; nextBlock := Some pieceO;
     RNG := RNG.mk 1;
     score := 900; level := 1; highScore := 950; gameEnd := false |}.

(** A game played with the keys only: eleven times hard drop and tick,
    which piles the pieces up to the top; then three times left, hard drop
    and tick. *)
Definition playToTheTop : list Action :=
  List.concat (repeat [Drop; Move Y 1] 11).

Definition playOn : list Action :=
  [Move X (-1); Move X (-1); Move X (-1); Drop; Move Y 1].

(** The state that game is in when the pile has reached the top. *)
Definition toppedOut : State :=
  match run 1 30 (initialState 1) playToTheTop with
  | Ok s => s
  | _ => initialState 1
  end.

(** The bookkeeping of the score, with what makes it inductive: the score
    is not negative. *)
Definition bookkeeping (s : State) : Prop :=
  0 <= score s /\ level s = score s / 1000 + 1 /\ highScore s >= score s.

(** ** main.ts: the interval between two ticks *)

(** The function mapped over [state$] to get the period of [tick$]. *)
Definition tickRate (s : State) : Z :=
  if level s * Constants.TICK_RATE_DECREMENT_MS >=? Constants.TICK_RATE_MS
  then Constants.MIN_TICK_RATE_MS
  else Constants.TICK_RATE_MS - level s * Constants.TICK_RATE_DECREMENT_MS.

(** ** Vocabulary of the further statements *)

(** The shape has a filled cell at row [r], column [c] (integers, as
    [updateRow] computes them). *)
Definition shapeFilledAt (sh : Shape) (r c : Z) : bool :=
  match lookupZ sh r with
  | None => false
  | Some row =>
      match lookupZ row c with
      | None => false
      | Some v => filled v
      end
  end.

(** The grid has a truthy cell at row [gy], column [gx]. *)
Definition occupied (g : Grid) (gy gx : Z) : bool :=
  match lookupZ g gy with
  | None => false
  | Some row =>
      match lookupZ row gx with
      | None => false
      | Some c => truthy c
      end
  end.

(** The cell of a shape at row [i], column [j]. *)
Definition shapeCell (sh : Shape) (i j : nat) : Z := nth j (nth i sh []) 0.

(** As many cells in every row as there are rows. *)
Definition square (sh : Shape) : Prop :=
  Forall (fun row => List.length row = List.length sh) sh.

(** A piece that is there, square and not blank. *)
Definition goodBlock (ob : option Block) : Prop :=
  exists b, ob = Some b /\ square (shape b) /\ hasFilled (shape b) = true.

(** The offsets [Rotate.apply] tries, in its order. *)
Definition rotationOffsets : list (Z * Z) :=
  [(0, 0); (1, 0); (-1, 0); (0, 1); (0, -1)].

(** What every state of a game satisfies: a grid of 20 rows of 10 cells
    with a free top row and no full row, two pieces, and a seed that
    selects a piece. *)
Definition wellFormed (s : State) : Prop :=
  Z.of_nat (List.length (grid s)) = Constants.GRID_HEIGHT
  /\ Forall (fun row => Z.of_nat (List.length row) = Constants.GRID_WIDTH)
       (grid s)
  /\ isGameEnd (grid s) = Ok false
  /\ Forall (fun row => fullRow row = false) (grid s)
  /\ goodBlock (block s)
  /\ goodBlock (nextBlock s)
  /\ 0 <= RNG.seed (RNG s) < 2147483647.

(** The matrix whose cell (i, j) is the cell (N - j, i) of [m], row by row
    of [m]: what [defaultRotationStrategy] builds when it does not throw. *)
Definition turned (m : Shape) : Shape :=
  mapi (fun row i =>
          mapi (fun (_ : Z) j => shapeCell m (List.length m - 1 - j) i) row)
    m.

(** A row with more cells than the matrix has rows. *)
Definition tooLong (m : Shape) (row : list Z) : Prop :=
  (List.length m < List.length row)%nat.

(** Every filled cell of the piece, put at (x, y), is a cell of the
    board. *)
Definition insideBoard (b : Block) (x y : Z) : Prop :=
  forall r c : nat,
    shapeFilledAt (shape b) (Z.of_nat r) (Z.of_nat c) = true ->
    0 <= x + Z.of_nat c < Constants.GRID_WIDTH
    /\ 0 <= y + Z.of_nat r < Constants.GRID_HEIGHT.

(** The piece is on the board and the next piece is one of the catalogue,
    as drawn. *)
Definition placed (s : State) : Prop :=
  (exists b, block s = Some b /\ insideBoard b (blockX s) (blockY s))
  /\ exists nb, nextBlock s = Some nb /\ In nb shapes.

(** The state of that game before its last tick: the pile is two rows
    below the top and the O piece has just appeared. *)
Definition beforeTopOut : State :=
  match run 1 30 (initialState 1) (firstn 21 playToTheTop) with
  | Ok s => s
  | _ => initialState 1
  end.

(** * Properties *)

(** ** The generator *)

(** Below 2^53 nothing is rounded. *)
Lemma round_double_exact (n : Z) : Z.abs n < 2 ^ 53 -> round_double n = n.
Proof.
  intros H. unfold round_double.
  destruct (Z.abs n <? 2 ^ 53) eqn:E; [reflexivity|].
  apply Z.ltb_ge in E. lia.
Qed.

(** While [a * seed + c] stays below 2^53 the code computes the
    recurrence exactly. *)
Lemma hash_exact_small (seed : Z) :
  0 <= seed <= 8162278 -> RNG.hash seed = lcg seed.
Proof.
  intros H. unfold RNG.hash, lcg, RNG.a, RNG.c, RNG.m.
  assert (B : 2 ^ 53 = 9007199254740992) by reflexivity.
  assert (P : round_double (1103515245 * seed) = 1103515245 * seed)
    by (apply round_double_exact; rewrite B; lia).
  rewrite P.
  assert (Q : round_double (1103515245 * seed + 12345)
              = 1103515245 * seed + 12345)
    by (apply round_double_exact; rewrite B; lia).
  rewrite Q.
  apply Z.rem_mod_nonneg; lia.
Qed.

(** The selector is in range for every seed below the largest one. *)
Lemma scale_range (seed : Z) :
  0 <= seed < 2147483647 -> 0 <= RNG.scale seed <= 6.
Proof.
  intros H. unfold RNG.scale, RNG.m.
  change (0x80000000 - 1) with 2147483647.
  split.
  - apply Z.div_pos; lia.
  - assert (7 * seed / 2147483647 < 7); [|lia].
    apply Z.div_lt_upper_bound; lia.
Qed.

Lemma randomBlock_defined (seed : Z) :
  0 <= seed < 2147483647 ->
  exists b, fst (randomBlock (RNG.mk seed)) = Some b /\ In b shapes.
Proof.
  intros H. pose proof (scale_range seed H) as R.
  unfold randomBlock, RNG.currentValue. cbn [fst RNG.seed].
  unfold lookupZ. destruct (RNG.scale seed <? 0) eqn:E.
  - apply Z.ltb_lt in E. lia.
  - destruct (nth_error shapes (Z.to_nat (RNG.scale seed))) eqn:N.
    + eexists; split; [reflexivity|]. eapply nth_error_In; eauto.
    + apply nth_error_None in N. cbn in N. lia.
Qed.

(** C3. The selector of a seed in [0, 2^31) is not always in [0,6]: the
    seed 2^31 - 1 is mapped to 7, and the catalogue, which has entries
    0..6 only, then yields [undefined] for the block. *)
Theorem scale_of_largest_seed_is_seven :
  0 <= 2147483647 < 2 ^ 31 /\
  RNG.currentValue (RNG.mk 2147483647) = 7 /\
  fst (randomBlock (RNG.mk 2147483647)) = None.
Proof. repeat split; try reflexivity. lia. Qed.

(** C5. On the seed 1103527590 (the seed [new RNG()] gets when the clock
    reads 1 ms) the product [a * seed] is above 2^53 and is rounded to a
    multiple of 256: [RNG.hash] returns 377401600 where the integer
    recurrence gives 377401575. *)
Theorem hash_differs_from_lcg :
  0 <= 1103527590 < 2 ^ 31 /\
  RNG.seed (RNG.fresh 1) = 1103527590 /\
  RNG.hash 1103527590 = 377401600 /\
  lcg 1103527590 = 377401575.
Proof. repeat split; try reflexivity. lia. Qed.

(** ** Restart *)

(** C4, as stated, fails: from score 500 and high score 300, Restart
    returns high score 300, not 500. *)
Lemma restart_scenarioD_high_score :
  score scenarioD = 500 /\ highScore scenarioD = 300 /\
  highScore (Restart_apply 1 scenarioD) = 300 /\
  highScore (Restart_apply 1 scenarioD) <> 500.
Proof. repeat split; try reflexivity. discriminate. Qed.

(** C4, amended. Restart returns the initial state of the module with two
    fields replaced: [highScore] is the current high score, unchanged, and
    [RNG] is the current generator advanced once.  So the score is 0, the
    level 1, the grid empty, the position the starting one and [gameEnd]
    false; from score 500 and high score 300 the high score stays 300. *)
Theorem restart_spec (ms : Z) (s : State) :
  Restart_apply ms s =
    {| block := block (initialState ms);
       blockX := Constants.STARTING_BLOCK_X;
       blockY := 0;
       grid := emptyGrid;
       nextBlock := nextBlock (initialState ms);
       RNG := RNG.next (RNG s);
       score := 0;
       level := Constants.STARTING_LEVEL;
       highScore := highScore s;
       gameEnd := false |}
  /\ tick ms 0 s Restart = Ok (Restart_apply ms s)
  /\ highScore (Restart_apply ms scenarioD) = 300.
Proof. repeat split. Qed.

(** ** Visiting arrays *)

Section Visits.

Context {A : Type}.

Lemma some_from_false (p : A -> nat -> result bool) (l : list A) (i0 : nat) :
  (forall a k, nth_error l k = Some a -> p a (i0 + k)%nat = Ok false) ->
  some_from p l i0 = Ok false.
Proof.
  revert i0. induction l as [|a l IH]; intros i0 H; cbn; [reflexivity|].
  rewrite <- (Nat.add_0_r i0) at 1. rewrite (H a 0%nat eq_refl).
  apply IH. intros b k Hk.
  replace (S i0 + k)%nat with (i0 + S k)%nat by lia. now apply H.
Qed.

Lemma some_from_false_inv (p : A -> nat -> result bool) (l : list A) i0 :
  some_from p l i0 = Ok false ->
  forall a k, nth_error l k = Some a -> p a (i0 + k)%nat = Ok false.
Proof.
  revert i0. induction l as [|a l IH]; intros i0 H b k Hk.
  - destruct k; discriminate.
  - cbn in H. destruct (p a i0) as [[|]| |] eqn:E; try discriminate.
    destruct k as [|k]; cbn in Hk.
    + injection Hk as <-. now rewrite Nat.add_0_r.
    + replace (i0 + S k)%nat with (S i0 + k)%nat by lia. eapply IH; eauto.
Qed.

(** A visit whose callback always answers, answers. *)
Lemma some_from_answers (p : A -> nat -> result bool) (l : list A) i0 :
  (forall a k, nth_error l k = Some a -> exists c, p a (i0 + k)%nat = Ok c) ->
  exists c, some_from p l i0 = Ok c.
Proof.
  revert i0. induction l as [|a l IH]; intros i0 H; cbn; [eauto|].
  destruct (H a 0%nat eq_refl) as [c Hc]. rewrite Nat.add_0_r in Hc.
  rewrite Hc. destruct c; [eauto|].
  apply IH. intros b k Hk.
  replace (S i0 + k)%nat with (i0 + S k)%nat by lia. now apply H.
Qed.

(** A visit whose callback never runs out of fuel does not either. *)
Lemma some_from_fuel_free (p : A -> nat -> result bool) (l : list A) i0 :
  (forall a k, p a k <> OutOfFuel) -> some_from p l i0 <> OutOfFuel.
Proof.
  intros H. revert i0. induction l as [|a l IH]; intros i0; cbn.
  - discriminate.
  - specialize (H a i0). destruct (p a i0) as [[|]| |]; try discriminate.
    + apply IH.
    + congruence.
Qed.

End Visits.

(** ** Collisions *)

Section Collisions.

Variables (g : Grid) (b : Block) (x : Z).

Lemma cellCollides_fuel_free y rowIdx cell cellIdx :
  cellCollides g x y rowIdx cell cellIdx <> OutOfFuel.
Proof.
  unfold cellCollides.
  destruct (negb (filled cell)); [discriminate|].
  destruct (_ || _); [discriminate|].
  destruct (lookupZ g _); discriminate.
Qed.

Lemma isCollision_fuel_free y : isCollision g b x y <> OutOfFuel.
Proof.
  apply some_from_fuel_free. intros row k.
  apply some_from_fuel_free. intros; apply cellCollides_fuel_free.
Qed.

(** A shape without filled cells collides nowhere. *)
Lemma isCollision_no_filled y :
  hasFilled (shape b) = false -> isCollision g b x y = Ok false.
Proof.
  intros H. apply some_from_false. intros row r Hr.
  apply some_from_false. intros cell c Hc.
  unfold cellCollides.
  destruct (filled cell) eqn:F; [|reflexivity].
  exfalso. unfold hasFilled in H.
  assert (E : existsb (existsb filled) (shape b) = true); [|congruence].
  apply existsb_exists. exists row. split.
  - eapply nth_error_In; eauto.
  - apply existsb_exists. exists cell. split; [|assumption].
    eapply nth_error_In; eauto.
Qed.

Lemma hasFilled_cell :
  hasFilled (shape b) = true ->
  exists r row c cell,
    nth_error (shape b) r = Some row /\ nth_error row c = Some cell /\
    filled cell = true.
Proof.
  intros H. apply existsb_exists in H as (row & Hrow & H).
  apply existsb_exists in H as (cell & Hcell & H).
  apply In_nth_error in Hrow as [r Hr].
  apply In_nth_error in Hcell as [c Hc].
  now exists r, row, c, cell.
Qed.

(** No collision means that every filled cell is inside the rows of the
    board. *)
Lemma isCollision_false_rows y r row c cell :
  nth_error (shape b) r = Some row -> nth_error row c = Some cell ->
  filled cell = true ->
  isCollision g b x y = Ok false ->
  0 <= y + Z.of_nat r < Constants.GRID_HEIGHT.
Proof.
  intros Hr Hc F H.
  pose proof (some_from_false_inv _ _ _ H _ _ Hr) as H1. cbn in H1.
  pose proof (some_from_false_inv _ _ _ H1 _ _ Hc) as H2. cbn in H2.
  unfold cellCollides in H2. rewrite F in H2. cbn in H2.
  destruct ((x + Z.of_nat c <? 0) || (x + Z.of_nat c >=? Constants.GRID_WIDTH)
            || (y + Z.of_nat r <? 0)
            || (y + Z.of_nat r >=? Constants.GRID_HEIGHT)) eqn:E;
    [discriminate|].
  apply orb_false_iff in E as [E E4].
  apply orb_false_iff in E as [E E3].
  apply Z.ltb_ge in E3. rewrite Z.geb_leb in E4. apply Z.leb_gt in E4. lia.
Qed.

(** On a grid with all its rows, [isCollision] does not throw. *)
Lemma isCollision_answers y :
  (Z.to_nat Constants.GRID_HEIGHT <= List.length g)%nat ->
  exists c, isCollision g b x y = Ok c.
Proof.
  intros W. apply some_from_answers. intros row r Hr.
  apply some_from_answers. intros cell c Hc. cbn.
  unfold cellCollides.
  destruct (negb (filled cell)); [eauto|].
  destruct (_ || _) eqn:E; [eauto|].
  apply orb_false_iff in E as [E E4].
  apply orb_false_iff in E as [E E3].
  apply Z.ltb_ge in E3. rewrite Z.geb_leb in E4. apply Z.leb_gt in E4.
  unfold lookupZ.
  destruct (y + Z.of_nat r <? 0) eqn:N; [apply Z.ltb_lt in N; lia|].
  destruct (nth_error g (Z.to_nat (y + Z.of_nat r))) eqn:L; [eauto|].
  apply nth_error_None in L. lia.
Qed.

End Collisions.

(** ** The recursion of Drop *)

Section FindNewY.

Variables (g : Grid) (b : Block) (x : Z).

Lemma findNewY_more_fuel fuel fuel' y y' :
  findNewY fuel g b x y = Ok y' -> (fuel <= fuel')%nat ->
  findNewY fuel' g b x y = Ok y'.
Proof.
  revert fuel' y. induction fuel as [|fuel IH]; intros fuel' y H L.
  - discriminate.
  - destruct fuel' as [|fuel']; [lia|]. cbn in *.
    destruct (isCollision g b x (y + 1)) as [[|]| |]; cbn in *;
      try discriminate; [assumption|].
    apply IH; [assumption|lia].
Qed.

(** Without a filled cell the recursion uses up any fuel. *)
Lemma findNewY_no_filled fuel y :
  hasFilled (shape b) = false -> findNewY fuel g b x y = OutOfFuel.
Proof.
  intros H. revert y. induction fuel as [|fuel IH]; intros y; cbn.
  - reflexivity.
  - rewrite (isCollision_no_filled g b x (y + 1) H). cbn. apply IH.
Qed.

(** With a filled cell in row [r] of the shape, the recursion is over
    once that cell is below the board: the distance to there bounds the
    depth. *)
Lemma findNewY_ends r row c cell :
  nth_error (shape b) r = Some row -> nth_error row c = Some cell ->
  filled cell = true ->
  forall n y,
    Constants.GRID_HEIGHT - (y + 1 + Z.of_nat r) <= Z.of_nat n ->
    findNewY (S n) g b x y <> OutOfFuel.
Proof.
  intros Hr Hc F. induction n as [|n IH]; intros y M.
  - cbn. pose proof (isCollision_fuel_free g b x (y + 1)) as NF.
    destruct (isCollision g b x (y + 1)) as [[|]| |] eqn:E; cbn;
      try discriminate; try congruence.
    pose proof (isCollision_false_rows g b x _ _ _ _ _ Hr Hc F E). lia.
  - cbn [findNewY].
    pose proof (isCollision_fuel_free g b x (y + 1)) as NF.
    destruct (isCollision g b x (y + 1)) as [[|]| |] eqn:E; cbn [bind];
      try discriminate; try congruence.
    apply IH. lia.
Qed.

(** On a grid with all its rows it returns, and what it returns is the
    first ordinate with a collision one step below. *)
Lemma findNewY_first r row c cell :
  (Z.to_nat Constants.GRID_HEIGHT <= List.length g)%nat ->
  nth_error (shape b) r = Some row -> nth_error row c = Some cell ->
  filled cell = true ->
  forall n y,
    Constants.GRID_HEIGHT - (y + 1 + Z.of_nat r) <= Z.of_nat n ->
    exists y',
      findNewY (S n) g b x y = Ok y' /\ y <= y' /\
      isCollision g b x (y' + 1) = Ok true /\
      forall z, y <= z < y' -> isCollision g b x (z + 1) = Ok false.
Proof.
  intros W Hr Hc F. induction n as [|n IH]; intros y M.
  - cbn. destruct (isCollision_answers g b x (y + 1) W) as [[|] E];
      rewrite E; cbn.
    + exists y. repeat split; try lia; assumption.
    + pose proof (isCollision_false_rows g b x _ _ _ _ _ Hr Hc F E). lia.
  - cbn [findNewY].
    destruct (isCollision_answers g b x (y + 1) W) as [[|] E];
      rewrite E; cbn [bind].
    + exists y. repeat split; try lia; assumption.
    + destruct (IH (y + 1)) as (y' & R & L & C & Fst); [lia|].
      exists y'. repeat split; try assumption; try lia.
      intros z Hz. destruct (Z.eq_dec z y) as [->|D]; [assumption|].
      apply Fst. lia.
Qed.

(** Below the floor a shape with a filled cell collides. *)
Lemma isCollision_below_floor r row c cell y :
  (Z.to_nat Constants.GRID_HEIGHT <= List.length g)%nat ->
  nth_error (shape b) r = Some row -> nth_error row c = Some cell ->
  filled cell = true ->
  Constants.GRID_HEIGHT <= y + Z.of_nat r ->
  isCollision g b x y = Ok true.
Proof.
  intros W Hr Hc F B.
  destruct (isCollision_answers g b x y W) as [[|] E]; [assumption|].
  pose proof (isCollision_false_rows g b x _ _ _ _ _ Hr Hc F E). lia.
Qed.

End FindNewY.

(** Where [findNewY] stops, other than at its start, the piece is free. *)
Lemma findNewY_free fuel g b x y0 y :
  findNewY fuel g b x y0 = Ok y ->
  y = y0 \/ (y0 < y /\ isCollision g b x y = Ok false).
Proof.
  revert y0. induction fuel as [|fuel IH]; intros y0 H; [discriminate|].
  cbn in H. destruct (isCollision g b x (y0 + 1)) as [[|]| |] eqn:E;
    cbn in H; try discriminate.
  - injection H as <-. now left.
  - right. apply IH in H as [->|[L C]]; split; try assumption; lia.
Qed.

Lemma moveTo_same (s : State) : moveTo s (blockX s) (blockY s) = s.
Proof. now destruct s. Qed.

(** The Move that Drop applies never lands the piece: Drop returns the
    state itself or the state with the piece moved down; burning, clearing
    and the end of the game are left to the next downward Move. *)
Lemma Drop_apply_only_moves fuel s s' :
  Drop_apply fuel s = Ok s' ->
  s' = s \/ exists y, blockY s < y /\ s' = moveTo s (blockX s) y.
Proof.
  unfold Drop_apply.
  destruct (theBlock s) as [b| |] eqn:B; cbn [bind]; try discriminate.
  destruct (findNewY _ _ _ _ _) as [y| |] eqn:F; cbn [bind];
    try discriminate.
  unfold Move_apply, moveBlock. rewrite B. cbn [bind].
  rewrite Z.add_0_r.
  replace (blockY s + (y - blockY s)) with y by lia.
  apply findNewY_free in F as [->|[L C]].
  - rewrite Z.sub_diag.
    destruct (isCollision _ _ _ _) as [[|]| |]; cbn; try discriminate;
      intros [= <-]; left; [reflexivity|apply moveTo_same].
  - rewrite C. cbn. intros [= <-]. right. now exists y.
Qed.

(** C9, as stated, fails. For the O piece at the top of the empty board
    the walk down stops at y = 18, Drop is Move('y', 18), and 18 is not
    the largest y with a collision at y + 1: there is a collision at
    y + 1 for every y from 18 on, so there is no largest one. *)
Lemma drop_no_largest_colliding :
  findNewY 19 (grid freshO) pieceO (blockX freshO) (blockY freshO) = Ok 18 /\
  Drop_apply 19 freshO = Move_apply Y (18 - blockY freshO) freshO /\
  isCollision (grid freshO) pieceO (blockX freshO) (19 + 1) = Ok true /\
  ~ (exists y, largestColliding freshO pieceO y).
Proof.
  split; [reflexivity|]. split; [reflexivity|]. split; [reflexivity|].
  intros (y & L & C & Max).
  assert (B : isCollision (grid freshO) pieceO (blockX freshO)
                (Z.max y 19 + 1 + 1) = Ok true).
  { apply (isCollision_below_floor _ _ _ 0%nat [1; 1] 0%nat 1);
      try reflexivity.
    unfold Constants.GRID_HEIGHT. cbn. lia. }
  assert (Z.max y 19 + 1 <= y); [|lia].
  apply Max; [cbn; lia|exact B].
Qed.

(** C9, amended. For a state whose active piece has a filled cell (on a
    grid that has its 20 rows) there is a y, the first one from
    [s.blockY] on with a collision at (s.blockX, y + 1), reached by
    walking down while one more step down does not collide, such that
    [findNewY] returns y and [Drop.apply(s)] is
    [Move('y', y - s.blockY).apply(s)]. *)
Theorem drop_is_move_to_first_collision (s : State) (b : Block) :
  block s = Some b ->
  hasFilled (shape b) = true ->
  (Z.to_nat Constants.GRID_HEIGHT <= List.length (grid s))%nat ->
  exists y fuel0,
    firstColliding s b y /\
    forall fuel, (fuel0 <= fuel)%nat ->
      findNewY fuel (grid s) b (blockX s) (blockY s) = Ok y /\
      Drop_apply fuel s = Move_apply Y (y - blockY s) s.
Proof.
  intros Hb HF W.
  destruct (hasFilled_cell b HF) as (r & row & c & cell & Hr & Hc & F).
  set (n := Z.to_nat (Constants.GRID_HEIGHT - (blockY s + 1 + Z.of_nat r))).
  destruct (findNewY_first (grid s) b (blockX s) r row c cell W Hr Hc F
              n (blockY s)) as (y & R & L & C & Fst); [lia|].
  exists y, (S n). split.
  - repeat split; assumption.
  - intros fuel Hfuel.
    pose proof (findNewY_more_fuel _ _ _ _ _ _ _ R Hfuel) as R'.
    split; [assumption|].
    unfold Drop_apply, theBlock. rewrite Hb. cbn [bind]. rewrite R'.
    reflexivity.
Qed.

Lemma drop_is_move_to_first_collision_witness :
  exists y fuel0,
    firstColliding freshO pieceO y /\
    forall fuel, (fuel0 <= fuel)%nat ->
      findNewY fuel (grid freshO) pieceO (blockX freshO) (blockY freshO)
        = Ok y /\
      Drop_apply fuel freshO = Move_apply Y (y - blockY freshO) freshO.
Proof.
  apply (drop_is_move_to_first_collision freshO pieceO).
  - reflexivity.
  - reflexivity.
  - apply Nat.leb_le. reflexivity.
Defined.

(** C10. The recursion of [findNewY] ends (with a value or an exception)
    for some depth exactly when the shape of the piece has a filled cell:
    with one, the call is over within [GRID_HEIGHT - blockY] nested calls
    at most; without one, [isCollision] is false everywhere and no depth
    is enough.  On a grid with its 20 rows the recursion ends with a
    value. *)
Theorem findNewY_terminates_iff_filled (g : Grid) (b : Block) (x y : Z) :
  ((exists fuel, findNewY fuel g b x y <> OutOfFuel)
   <-> hasFilled (shape b) = true)
  /\ (hasFilled (shape b) = false ->
      forall fuel z, isCollision g b x z = Ok false
                     /\ findNewY fuel g b x y = OutOfFuel)
  /\ (hasFilled (shape b) = true ->
      findNewY (S (Z.to_nat (Constants.GRID_HEIGHT - y))) g b x y
        <> OutOfFuel)
  /\ (hasFilled (shape b) = true ->
      (Z.to_nat Constants.GRID_HEIGHT <= List.length g)%nat ->
      exists fuel y', findNewY fuel g b x y = Ok y').
Proof.
  assert (T : hasFilled (shape b) = true ->
              findNewY (S (Z.to_nat (Constants.GRID_HEIGHT - y))) g b x y
                <> OutOfFuel).
  { intros HF.
    destruct (hasFilled_cell b HF) as (r & row & c & cell & Hr & Hc & F).
    apply (findNewY_ends g b x r row c cell Hr Hc F). lia. }
  split; [|split; [|split]].
  - split.
    + intros [fuel H]. destruct (hasFilled (shape b)) eqn:HF; [reflexivity|].
      exfalso. apply H. now apply findNewY_no_filled.
    + intros HF. eexists. apply (T HF).
  - intros HF fuel z. split.
    + now apply isCollision_no_filled.
    + now apply findNewY_no_filled.
  - exact T.
  - intros HF W.
    destruct (hasFilled_cell b HF) as (r & row & c & cell & Hr & Hc & F).
    destruct (findNewY_first g b x r row c cell W Hr Hc F
                (Z.to_nat (Constants.GRID_HEIGHT - (y + 1 + Z.of_nat r))) y)
      as (y' & R & _); [lia|].
    eauto.
Qed.

(** ** Clearing rows *)

Lemma splice1_length {A : Type} (y : nat) (l : list A) :
  (y < List.length l)%nat -> S (List.length (splice1 y l)) = List.length l.
Proof.
  intros H. unfold splice1.
  rewrite length_app, length_firstn, length_skipn. lia.
Qed.

Lemma splice1_app {A : Type} (y : nat) (pre post : list A) :
  (List.length pre <= y)%nat ->
  splice1 y (pre ++ post)
  = (pre ++ firstn (y - List.length pre) post
         ++ skipn (S (y - List.length pre)) post).
Proof.
  intros H. unfold splice1.
  rewrite firstn_app, skipn_app.
  rewrite (firstn_all2 pre) by lia.
  rewrite (skipn_all2 pre) by lia.
  replace (S y - List.length pre)%nat with (S (y - List.length pre)) by lia.
  now rewrite <- app_assoc.
Qed.

Lemma repeat_shift {A : Type} (a : A) (n : nat) (l : list A) :
  (repeat a n ++ a :: l = a :: repeat a n ++ l).
Proof.
  change (a :: l) with ([a] ++ l). rewrite app_assoc.
  now rewrite <- repeat_cons.
Qed.

Lemma updateGridAfterClearance_length (rows : list nat) (g : Grid) :
  Forall (fun y => (y < List.length g)%nat) rows ->
  List.length (updateGridAfterClearance g rows) = List.length g.
Proof.
  unfold updateGridAfterClearance. revert g.
  induction rows as [|y rows IH]; intros g H; cbn [fold_left];
    [reflexivity|].
  unfold clearLine at 2.
  inversion H as [|? ? Hy Hrest]; subst.
  assert (L : List.length (emptyRow :: splice1 y g) = List.length g)
    by (cbn [List.length]; now apply splice1_length).
  rewrite IH; [exact L|]. now rewrite L.
Qed.

(** *** Indices kept by [keepRows] *)

Lemma existsb_eqb_above (i : nat) (rows : list nat) :
  Forall (fun z => (i < z)%nat) rows -> existsb (Nat.eqb i) rows = false.
Proof.
  induction 1 as [|z rows Hz _ IH]; cbn; [reflexivity|].
  rewrite IH, orb_false_r. apply Nat.eqb_neq. lia.
Qed.

Lemma keepRows_nil {A : Type} (i : nat) (g : list A) : keepRows [] i g = g.
Proof.
  revert i. induction g as [|r g IH]; intros i; cbn; [reflexivity|].
  now rewrite IH.
Qed.

Lemma keepRows_past {A : Type} (y : nat) (rest : list nat) (i : nat)
  (g : list A) :
  (y < i)%nat -> keepRows (y :: rest) i g = keepRows rest i g.
Proof.
  revert i. induction g as [|r g IH]; intros i H; cbn; [reflexivity|].
  assert (E : Nat.eqb i y = false) by (apply Nat.eqb_neq; lia).
  rewrite E. cbn. rewrite !IH by lia. reflexivity.
Qed.

Lemma keepRows_cons {A : Type} (y : nat) (rest : list nat) (g : list A) :
  Forall (fun z => (y < z)%nat) rest ->
  forall i, (i <= y < i + List.length g)%nat ->
  keepRows (y :: rest) i g
  = (firstn (y - i) g ++ keepRows rest (S y) (skipn (S (y - i)) g)).
Proof.
  intros Hrest. induction g as [|r g IH]; intros i H; [cbn in H; lia|].
  cbn [keepRows List.length] in *.
  destruct (Nat.eq_dec i y) as [->|D].
  - cbn [existsb]. rewrite Nat.eqb_refl. cbn [orb].
    rewrite Nat.sub_diag. cbn. apply keepRows_past. lia.
  - rewrite existsb_eqb_above.
    + rewrite IH by lia.
      replace (y - i)%nat with (S (y - S i)) by lia. reflexivity.
    + constructor; [lia|].
      eapply Forall_impl; [|exact Hrest]. cbn. intros; lia.
Qed.

Lemma keepRows_Forall {A : Type} (P : A -> Prop) rows i (g : list A) :
  Forall P g -> Forall P (keepRows rows i g).
Proof.
  intros H. revert i. induction H as [|r g Hr _ IH]; intros i; cbn.
  - constructor.
  - destruct (existsb (Nat.eqb i) rows); [apply IH|].
    constructor; [assumption|apply IH].
Qed.

(** The loop of [updateGridAfterClearance] on ascending indices: when
    it comes to an index, the rows before it are the new empty rows and
    the rows kept so far, and the rows from it on are untouched. *)
Lemma clearance_loop (rows : list nat) :
  ascending rows ->
  forall pre post : Grid,
    Forall (fun y => (List.length pre <= y
                      < List.length pre + List.length post)%nat) rows ->
    fold_left clearLine rows (pre ++ post)
    = (repeat emptyRow (List.length rows) ++ pre
         ++ keepRows rows (List.length pre) post).
Proof.
  induction rows as [|y rest IH]; intros Asc pre post R.
  - cbn. now rewrite keepRows_nil.
  - destruct Asc as [Hy Asc]. inversion R as [|? ? Ry Rrest]; subst.
    cbn [fold_left List.length repeat]. unfold clearLine at 2.
    rewrite splice1_app by lia.
    set (k := (y - List.length pre)%nat).
    replace (emptyRow :: pre ++ firstn k post ++ skipn (S k) post)
      with ((emptyRow :: pre ++ firstn k post) ++ skipn (S k) post)
      by (cbn [app]; now rewrite <- app_assoc).
    assert (L : List.length (emptyRow :: pre ++ firstn k post) = S y).
    { cbn [List.length]. rewrite length_app, length_firstn. lia. }
    rewrite IH; [|assumption|].
    + rewrite L. rewrite keepRows_cons by (assumption || lia).
      fold k. cbn [app]. rewrite repeat_shift. cbn [app].
      now rewrite <- !app_assoc.
    + rewrite L, length_skipn.
      rewrite Forall_forall in *. intros z Hz.
      specialize (Hy z Hz). specialize (Rrest z Hz). cbn in *. lia.
Qed.

(** *** The indices [linesCleared] returns *)

Lemma reduce_collect (g : Grid) (i : nat) (acc : list nat) :
  reduce_from collectFull g i acc = (acc ++ reduce_from collectFull g i []).
Proof.
  revert i acc. induction g as [|r g IH]; intros i acc; cbn.
  - now rewrite app_nil_r.
  - rewrite (IH (S i) (collectFull acc r i)), (IH (S i) (collectFull [] r i)).
    unfold collectFull. destruct (forallb truthy r); cbn.
    + now rewrite <- app_assoc.
    + reflexivity.
Qed.

Lemma reduce_collect_cons (r : list Cell) (g : Grid) (i : nat) :
  reduce_from collectFull (r :: g) i []
  = if fullRow r then i :: reduce_from collectFull g (S i) []
    else reduce_from collectFull g (S i) [].
Proof.
  cbn. rewrite reduce_collect. unfold collectFull, fullRow.
  destruct (forallb truthy r); reflexivity.
Qed.

Lemma linesCleared_length (g : Grid) :
  List.length (linesCleared g) = List.length (filter fullRow g).
Proof.
  unfold linesCleared. generalize 0%nat.
  induction g as [|r g IH]; intros i; [reflexivity|].
  rewrite reduce_collect_cons. cbn [filter].
  destruct (fullRow r); cbn [List.length]; now rewrite IH.
Qed.

Lemma reduce_collect_range (g : Grid) (i : nat) :
  Forall (fun y => (i <= y < i + List.length g)%nat)
    (reduce_from collectFull g i [])
  /\ ascending (reduce_from collectFull g i []).
Proof.
  revert i. induction g as [|r g IH]; intros i.
  - cbn. split; constructor.
  - rewrite reduce_collect_cons. destruct (IH (S i)) as [R A].
    assert (R' : Forall (fun y => (i <= y < i + List.length (r :: g))%nat)
                   (reduce_from collectFull g (S i) [])).
    { eapply Forall_impl; [|exact R]. cbn. intros; lia. }
    destruct (fullRow r).
    + split.
      * constructor; [cbn; lia|exact R'].
      * cbn. split; [|exact A].
        eapply Forall_impl; [|exact R]. cbn. intros; lia.
    + split; assumption.
Qed.

(** [linesCleared] returns valid row indices in ascending order. *)
Lemma linesCleared_ascending (g : Grid) :
  ascending (linesCleared g)
  /\ Forall (fun y => (y < List.length g)%nat) (linesCleared g).
Proof.
  unfold linesCleared.
  destruct (reduce_collect_range g 0) as [R A]. split; [exact A|].
  eapply Forall_impl; [|exact R]. cbn. intros; lia.
Qed.

(** Clearing the rows [linesCleared] reports: the full rows go, as many
    empty rows come on top. *)
Lemma clear_full_rows_loop (post pre : Grid) :
  fold_left clearLine (reduce_from collectFull post (List.length pre) [])
    (pre ++ post)
  = (repeat emptyRow (List.length (filter fullRow post)) ++ pre
       ++ filter (fun r => negb (fullRow r)) post).
Proof.
  revert pre. induction post as [|r post IH]; intros pre.
  - reflexivity.
  - rewrite reduce_collect_cons. cbn [filter].
    destruct (fullRow r) eqn:F; cbn [negb].
    + cbn [fold_left List.length repeat]. unfold clearLine at 2.
      rewrite splice1_app by lia. rewrite Nat.sub_diag. cbn [firstn skipn app].
      specialize (IH (emptyRow :: pre)). cbn [List.length app] in IH.
      rewrite IH. cbn [app]. now rewrite repeat_shift.
    + specialize (IH (pre ++ [r])).
      rewrite length_app in IH. cbn [List.length] in IH.
      rewrite Nat.add_1_r in IH. rewrite <- !app_assoc in IH.
      exact IH.
Qed.

Lemma clear_full_rows (g : Grid) :
  updateGridAfterClearance g (linesCleared g)
  = (repeat emptyRow (List.length (filter fullRow g))
       ++ filter (fun r => negb (fullRow r)) g).
Proof.
  exact (clear_full_rows_loop g []).
Qed.

(** C8. For a grid [g] and a strictly ascending list [rows] of indices of
    rows of [g], [updateGridAfterClearance] returns as many empty rows
    (ten [null] cells each) as there are indices, followed by the rows of
    [g] whose index is not in the list, in their order; that is a grid of
    the height of [g], and of its width when the rows of [g] have the
    [GRID_WIDTH] cells of a grid. *)
Theorem updateGridAfterClearance_spec (g : Grid) (rows : list nat) :
  ascending rows ->
  Forall (fun y => (y < List.length g)%nat) rows ->
  updateGridAfterClearance g rows
    = repeat emptyRow (List.length rows) ++ keepRows rows 0 g
  /\ emptyRow = repeat None 10
  /\ (List.length (keepRows rows 0 g) + List.length rows
      = List.length g)%nat
  /\ List.length (updateGridAfterClearance g rows) = List.length g
  /\ (Forall (fun r => Z.of_nat (List.length r) = Constants.GRID_WIDTH) g ->
      Forall (fun r => Z.of_nat (List.length r) = Constants.GRID_WIDTH)
        (updateGridAfterClearance g rows)).
Proof.
  intros Asc R.
  assert (E : updateGridAfterClearance g rows
              = repeat emptyRow (List.length rows) ++ keepRows rows 0 g).
  { apply (clearance_loop rows Asc [] g).
    eapply Forall_impl; [|exact R]. cbn. intros; lia. }
  pose proof (updateGridAfterClearance_length rows g R) as L.
  split; [exact E|]. split; [reflexivity|]. split; [|split; [exact L|]].
  - rewrite E, length_app, repeat_length in L. lia.
  - intros W. rewrite E. apply Forall_app. split.
    + apply Forall_forall. intros r Hr. apply repeat_spec in Hr. now subst.
    + now apply keepRows_Forall.
Qed.

Lemma updateGridAfterClearance_spec_witness :
  updateGridAfterClearance twoFullGrid (linesCleared twoFullGrid)
    = repeat emptyRow 2 ++ repeat emptyRow 17 ++ [stoneRow]
  /\ List.length
       (updateGridAfterClearance twoFullGrid (linesCleared twoFullGrid))
     = 20%nat.
Proof.
  destruct (updateGridAfterClearance_spec twoFullGrid
              (linesCleared twoFullGrid)) as (E & _ & _ & L & _).
  - apply linesCleared_ascending.
  - apply linesCleared_ascending.
  - split; [exact E|exact L].
Defined.

(** ** Move *)

(** C1. The claim, that the state returned at the end of the game holds
    the burned grid, fails on the code.  The O piece at (3, 0) above a
    stone at row 2: Move('y', 1) collides, the burned grid has its top row
    occupied, and the state returned has [gameEnd] set but the grid of the
    state before: the burned grid is computed, tested and dropped, where
    the landing branch next to it stores it. *)
Lemma game_over_grid_is_not_burned :
  isCollision (grid blockedAtTop) pieceO 3 (0 + 1) = Ok true /\
  isGameEnd (updateGrid (grid blockedAtTop) pieceO 3 0) = Ok true /\
  exists s', Move_apply Y 1 blockedAtTop = Ok s' /\
             gameEnd s' = true /\
             grid s' = grid blockedAtTop /\
             grid s' <> updateGrid (grid blockedAtTop) pieceO 3 0.
Proof.
  split; [reflexivity|]. split; [reflexivity|].
  eexists. split; [reflexivity|]. split; [reflexivity|].
  split; [reflexivity|]. discriminate.
Qed.

(** What the code returns in the branch of the end of the game, for every
    state: the state [s] with [gameEnd] set to true and every other field
    as in [s], the grid too. *)
Theorem move_down_game_over (s : State) (b : Block) (m : Z) :
  block s = Some b ->
  m > 0 ->
  isCollision (grid s) b (blockX s) (blockY s + m) = Ok true ->
  isGameEnd (updateGrid (grid s) b (blockX s) (blockY s)) = Ok true ->
  Move_apply Y m s
  = Ok {| block := block s; blockX := blockX s; blockY := blockY s;
          grid := grid s; nextBlock := nextBlock s; RNG := RNG s;
          score := score s; level := level s; highScore := highScore s;
          gameEnd := true |}.
Proof.
  intros Hb Hm Hc He. unfold Move_apply, moveBlock, theBlock.
  rewrite Hb. cbn [bind]. rewrite Z.add_0_r, Hc. cbn [bind andb].
  assert (G : (m >? 0) = true) by (apply Z.gtb_lt; lia).
  rewrite G, He. cbn [bind]. unfold endGame. now rewrite Hb.
Qed.

Lemma move_down_game_over_witness :
  Move_apply Y 1 blockedAtTop
  = Ok {| block := Some pieceO; blockX := 3; blockY := 0;
          grid := stoneGrid; nextBlock := Some pieceO; RNG := RNG.mk 1;
          score := 0; level := 1; highScore := 0; gameEnd := true |}.
Proof.
  apply (move_down_game_over blockedAtTop pieceO 1).
  - reflexivity.
  - lia.
  - reflexivity.
  - reflexivity.
Defined.

(** C6. When Move('y', m) with m > 0 collides at the candidate position
    and the grid burned at the current position has a free top row,
    [Move.apply] returns the state with: the burned grid without its full
    rows under as many empty rows; the score raised by 100 for each of
    them, the level [floor(score / 1000) + 1] and the high score the
    larger of the new score and the old high score; the former next piece
    as the piece; the piece drawn from [s.RNG] as the next piece; the
    position (STARTING_BLOCK_X, 0); the generator advanced once. *)
Theorem move_down_landing (s : State) (b : Block) (m : Z) :
  block s = Some b ->
  m > 0 ->
  isCollision (grid s) b (blockX s) (blockY s + m) = Ok true ->
  isGameEnd (updateGrid (grid s) b (blockX s) (blockY s)) = Ok false ->
  let burned := updateGrid (grid s) b (blockX s) (blockY s) in
  let cleared := Z.of_nat (List.length (filter fullRow burned)) in
  let newScore := score s + 100 * cleared in
  Move_apply Y m s
  = Ok {| block := nextBlock s;
          blockX := Constants.STARTING_BLOCK_X;
          blockY := 0;
          grid := repeat emptyRow (List.length (filter fullRow burned))
                    ++ filter (fun r => negb (fullRow r)) burned;
          nextBlock := lookupZ shapes (RNG.currentValue (RNG s));
          RNG := RNG.next (RNG s);
          score := newScore;
          level := newScore / 1000 + 1;
          highScore := Z.max newScore (highScore s);
          gameEnd := gameEnd s |}.
Proof.
  intros Hb Hm Hc He burned cleared newScore.
  unfold Move_apply, moveBlock, theBlock.
  rewrite Hb. cbn [bind]. rewrite Z.add_0_r, Hc. cbn [bind andb].
  assert (G : (m >? 0) = true) by (apply Z.gtb_lt; lia).
  rewrite G, He. cbn [bind]. fold burned.
  unfold landed, scoreUpdates.
  rewrite clear_full_rows, linesCleared_length. fold cleared.
  replace (score s + cleared * 100) with newScore by (unfold newScore; lia).
  reflexivity.
Qed.

Lemma move_down_landing_witness :
  Move_apply Y 1 restingO
  = Ok {| block := Some pieceO;
          blockX := 3;
          blockY := 0;
          grid := emptyGrid;
          nextBlock := Some (mkBlock [[1; 1; 1; 1]; [0; 0; 0; 0];
                                      [0; 0; 0; 0]; [0; 0; 0; 0]] "cyan");
          RNG := RNG.mk 1103527590;
          score := 1100;
          level := 2;
          highScore := 1100;
          gameEnd := false |}.
Proof.
  apply (move_down_landing restingO pieceO 1).
  - reflexivity.
  - lia.
  - reflexivity.
  - reflexivity.
Defined.

(** ** Sequences of actions *)

Section Actions.

Variable ms : Z.

(** What [Move.apply] can return. *)
Lemma Move_apply_cases direction magnitude s s' :
  Move_apply direction magnitude s = Ok s' ->
  s' = s \/ s' = endGame s \/ (exists x y, s' = moveTo s x y)
  \/ exists newGrid, s' = landed s newGrid.
Proof.
  unfold Move_apply, moveBlock.
  destruct (theBlock s) as [b| |]; cbn [bind]; try discriminate.
  destruct (isCollision _ _ _ _) as [[|]| |]; cbn [bind]; try discriminate.
  - destruct (_ && _).
    + destruct (isGameEnd _) as [[|]| |]; cbn [bind]; try discriminate;
        intros [= <-]; eauto.
    + intros [= <-]; eauto.
  - intros [= <-]; eauto 6.
Qed.

Lemma Drop_apply_cases fuel s s' :
  Drop_apply fuel s = Ok s' ->
  s' = s \/ s' = endGame s \/ (exists x y, s' = moveTo s x y)
  \/ exists newGrid, s' = landed s newGrid.
Proof.
  unfold Drop_apply.
  destruct (theBlock s) as [b| |]; cbn [bind]; try discriminate.
  destruct (findNewY _ _ _ _ _) as [y| |]; cbn [bind]; try discriminate.
  apply Move_apply_cases.
Qed.

(** What [Rotate.apply] can return. *)
Lemma Rotate_apply_cases s s' :
  Rotate_apply s = Ok s' ->
  s' = s \/ exists rotatedBlock dx dy, s' = updateState s rotatedBlock dx dy.
Proof.
  unfold Rotate_apply.
  destruct (theBlock s) as [b| |]; cbn [bind]; try discriminate.
  destruct (rotateMatrix _) as [r| |]; cbn [bind]; try discriminate.
  destruct (tryRotationOffsets _ _ _) as [[o|]| |]; cbn [bind];
    try discriminate; intros [= <-]; eauto.
Qed.

Lemma landed_scores s newGrid :
  exists n, 0 <= n /\
    score (landed s newGrid) = score s + n * 100 /\
    level (landed s newGrid) = score (landed s newGrid) / 1000 + 1 /\
    highScore (landed s newGrid)
    = Z.max (score (landed s newGrid)) (highScore s) /\
    gameEnd (landed s newGrid) = gameEnd s.
Proof.
  exists (Z.of_nat (List.length (linesCleared newGrid))).
  split; [lia|]. unfold landed, scoreUpdates. cbn. auto.
Qed.

Lemma bookkeeping_tick fuel s action s' :
  bookkeeping s -> tick ms fuel s action = Ok s' -> bookkeeping s'.
Proof.
  intros (P & L & H) T.
  assert (M : s' = s \/ s' = endGame s \/ (exists x y, s' = moveTo s x y)
              \/ (exists newGrid, s' = landed s newGrid) ->
              bookkeeping s').
  { intros [->|[->|[(x & y & ->)|(g & ->)]]];
      try (unfold bookkeeping; cbn; repeat split; assumption).
    destruct (landed_scores s g) as (n & Hn & S & Lv & Hs & _).
    unfold bookkeeping. rewrite Hs, Lv, S. repeat split; lia. }
  destruct action as [d m| | |]; cbn [tick] in T.
  - apply M. eapply Move_apply_cases; eauto.
  - apply Rotate_apply_cases in T as [->|(r & dx & dy & ->)];
      unfold bookkeeping; cbn; repeat split; assumption.
  - injection T as <-. unfold bookkeeping, Restart_apply. cbn.
    repeat split; try reflexivity; lia.
  - apply M. eapply Drop_apply_cases; eauto.
Qed.

Lemma bookkeeping_reachable s : reachable ms s -> bookkeeping s.
Proof.
  induction 1 as [|s action fuel s' _ IH T].
  - unfold bookkeeping. cbn. repeat split; try reflexivity; lia.
  - eapply bookkeeping_tick; eauto.
Qed.

Lemma run_reachable fuel actions s s' :
  reachable ms s -> run ms fuel s actions = Ok s' -> reachable ms s'.
Proof.
  revert s. induction actions as [|a rest IH]; intros s R H; cbn in H.
  - now injection H as <-.
  - destruct (tick ms fuel s a) as [s1| |] eqn:T; cbn in H;
      try discriminate.
    eapply IH; [|exact H]. eapply reach_tick; eauto.
Qed.

(** No action other than Restart clears [gameEnd]. *)
Lemma gameEnd_tick fuel s action s' :
  isRestart action = false -> tick ms fuel s action = Ok s' ->
  gameEnd s = true -> gameEnd s' = true.
Proof.
  intros NR T G.
  assert (M : s' = s \/ s' = endGame s \/ (exists x y, s' = moveTo s x y)
              \/ (exists newGrid, s' = landed s newGrid) ->
              gameEnd s' = true).
  { intros [->|[->|[(x & y & ->)|(g & ->)]]];
      [assumption|reflexivity|exact G|exact G]. }
  destruct action as [d m| | |]; cbn [tick] in T; try discriminate.
  - apply M. eapply Move_apply_cases; eauto.
  - apply Rotate_apply_cases in T as [->|(r & dx & dy & ->)]; assumption.
  - apply M. eapply Drop_apply_cases; eauto.
Qed.

End Actions.

(** C7. In every state reached from the initial state by Move, Rotate,
    Restart and Drop actions, [level = floor(score / 1000) + 1] and
    [highScore >= score]. *)
Theorem reachable_level_and_high_score (ms : Z) (s : State) :
  reachable ms s ->
  level s = score s / 1000 + 1 /\ highScore s >= score s.
Proof.
  intros R. apply bookkeeping_reachable in R as (_ & L & H). now split.
Qed.

Lemma toppedOut_run : run 1 30 (initialState 1) playToTheTop = Ok toppedOut.
Proof. vm_compute. reflexivity. Qed.

Lemma toppedOut_reachable : reachable 1 toppedOut.
Proof.
  eapply run_reachable; [apply reach_init|exact toppedOut_run].
Defined.

Lemma reachable_level_and_high_score_witness :
  level toppedOut = score toppedOut / 1000 + 1
  /\ highScore toppedOut >= score toppedOut.
Proof.
  apply (reachable_level_and_high_score 1 toppedOut).
  exact toppedOut_reachable.
Defined.

(** C2, as stated, fails. In the game that starts when the clock reads
    1 ms, eleven hard drops, each followed by a tick, end the game.  The
    piece is then still moved by the keys: three steps left, a hard drop
    and a tick burn it into the grid, so the grid changes although
    [gameEnd] is true and no Restart was applied. *)
Lemma game_over_grid_not_frozen :
  reachable 1 toppedOut /\
  gameEnd toppedOut = true /\
  forallb (fun a => negb (isRestart a)) playOn = true /\
  exists s', run 1 30 toppedOut playOn = Ok s' /\
             gameEnd s' = true /\
             grid s' <> grid toppedOut.
Proof.
  split; [exact toppedOut_reachable|].
  split; [vm_compute; reflexivity|].
  split; [reflexivity|].
  eexists. split; [vm_compute; reflexivity|].
  split; [reflexivity|].
  vm_compute. discriminate.
Qed.

(** C2, amended. Once [gameEnd] is true, a sequence of actions without a
    Restart leaves [gameEnd] true: only Restart clears it.  (The grid, the
    score and the level are not frozen by it: Move, Rotate and Drop do not
    look at the flag.) *)
Theorem game_end_persists (ms : Z) (fuel : nat) (actions : list Action)
  (s s' : State) :
  gameEnd s = true ->
  forallb (fun a => negb (isRestart a)) actions = true ->
  run ms fuel s actions = Ok s' ->
  gameEnd s' = true.
Proof.
  revert s. induction actions as [|a rest IH]; intros s G NR H; cbn in *.
  - now injection H as <-.
  - apply andb_prop in NR as [Na NR]. apply negb_true_iff in Na.
    destruct (tick ms fuel s a) as [s1| |] eqn:T; cbn in H; try discriminate.
    apply (IH s1); try assumption.
    eapply gameEnd_tick; eauto.
Qed.

Lemma game_end_persists_witness :
  exists s', run 1 30 toppedOut playOn = Ok s' /\ gameEnd s' = true.
Proof.
  eexists. split.
  - vm_compute. reflexivity.
  - apply (game_end_persists 1 30 playOn toppedOut).
    + vm_compute. reflexivity.
    + reflexivity.
    + vm_compute. reflexivity.
Defined.

(** The O piece stops falling within 19 nested calls; a piece without
    filled cells is still falling after 1000. *)
Lemma findNewY_terminates_iff_filled_witness :
  (exists fuel, findNewY fuel emptyGrid pieceO 3 0 <> OutOfFuel)
  /\ findNewY 1000 emptyGrid (mkBlock [[0; 0]; [0; 0]] "yellow") 3 0
     = OutOfFuel.
Proof.
  split.
  - apply (findNewY_terminates_iff_filled emptyGrid pieceO 3 0). reflexivity.
  - apply (findNewY_terminates_iff_filled emptyGrid
             (mkBlock [[0; 0]; [0; 0]] "yellow") 3 0).
    + reflexivity.
    + exact 0.
Defined.

(** ** The embedding on small inputs *)

Example rotate_T :
  rotateMatrix [[0; 1; 0]; [1; 1; 1]; [0; 0; 0]]
  = Ok [[0; 1; 0]; [0; 1; 1]; [0; 1; 0]].
Proof. reflexivity. Qed.

Example rotate_ragged_throws : rotateMatrix [[1; 1; 1]] = TypeError.
Proof. reflexivity. Qed.

Example initial_pieces :
  option_map color (block (initialState 1)) = Some "orange"
  /\ option_map color (nextBlock (initialState 1)) = Some "yellow"
  /\ RNG (initialState 1) = RNG.mk 333417792.
Proof. repeat split. Qed.

Example collision_with_wall :
  isCollision emptyGrid pieceO (-1) 0 = Ok true
  /\ isCollision emptyGrid pieceO 8 18 = Ok false
  /\ isCollision emptyGrid pieceO 9 18 = Ok true
  /\ isCollision [] pieceO 0 0 = TypeError.
Proof. repeat split. Qed.

Example scenario_A :
  Move_apply Y 1 freshO = Ok (moveTo freshO 3 1).
Proof. reflexivity. Qed.

Example drop_then_tick :
  run 1 30 freshO [Drop] = Ok (moveTo freshO 3 18)
  /\ exists s', run 1 30 freshO [Drop; Move Y 1] = Ok s'
                /\ blockY s' = 0
                /\ nth_error (grid s') 19
                   = Some [None; None; None; Some "yellow"; Some "yellow";
                           None; None; None; None; None].
Proof. split; [reflexivity|]. eexists. repeat split. Qed.

(** * Further properties *)

(** ** More on visiting arrays *)

Section MoreVisits.

Context {A B : Type}.

Lemma mapi_from_length (f : A -> nat -> B) (l : list A) (i0 : nat) :
  List.length (mapi_from f l i0) = List.length l.
Proof.
  revert i0. induction l as [|a l IH]; intros i0; cbn; [reflexivity|].
  now rewrite IH.
Qed.

Lemma mapi_from_nth (f : A -> nat -> B) (l : list A) (i0 k : nat) :
  nth_error (mapi_from f l i0) k
  = option_map (fun a => f a (i0 + k)%nat) (nth_error l k).
Proof.
  revert i0 k. induction l as [|a l IH]; intros i0 k; cbn.
  - now destruct k.
  - destruct k as [|k]; cbn.
    + now rewrite Nat.add_0_r.
    + rewrite IH. now replace (S i0 + k)%nat with (i0 + S k)%nat by lia.
Qed.

Lemma some_from_true_inv (p : A -> nat -> result bool) (l : list A) i0 :
  some_from p l i0 = Ok true ->
  exists k a, nth_error l k = Some a /\ p a (i0 + k)%nat = Ok true.
Proof.
  revert i0. induction l as [|a l IH]; intros i0 H; cbn in H;
    [discriminate|].
  destruct (p a i0) as [[|]| |] eqn:E; try discriminate.
  - exists 0%nat, a. now rewrite Nat.add_0_r.
  - destruct (IH _ H) as (k & b & Hk & Hb). exists (S k), b.
    split; [assumption|].
    now replace (i0 + S k)%nat with (S i0 + k)%nat by lia.
Qed.

Lemma mapiM_from_ok (f : A -> nat -> result B) (g : A -> nat -> B)
  (l : list A) (i0 : nat) :
  (forall k a, nth_error l k = Some a -> f a (i0 + k)%nat = Ok (g a (i0 + k)%nat)) ->
  mapiM_from f l i0 = Ok (mapi_from g l i0).
Proof.
  revert i0. induction l as [|a l IH]; intros i0 H; cbn; [reflexivity|].
  pose proof (H 0%nat a eq_refl) as H0. rewrite Nat.add_0_r in H0.
  rewrite H0. cbn. rewrite IH; [reflexivity|].
  intros k b Hk. replace (S i0 + k)%nat with (i0 + S k)%nat by lia.
  now apply H.
Qed.

Lemma mapiM_from_throws (f : A -> nat -> result B) (l : list A) (i0 : nat) :
  (forall a k, f a k <> OutOfFuel) ->
  (exists k a, nth_error l k = Some a /\ f a (i0 + k)%nat = TypeError) ->
  mapiM_from f l i0 = TypeError.
Proof.
  intros NF. revert i0. induction l as [|a l IH]; intros i0 (k & b & Hk & Hb).
  - destruct k; discriminate.
  - cbn. destruct k as [|k]; cbn in Hk.
    + injection Hk as ->. rewrite Nat.add_0_r in Hb. now rewrite Hb.
    + destruct (f a i0) as [c| |] eqn:E; cbn; [|reflexivity|].
      * rewrite IH; [reflexivity|]. exists k, b. split; [assumption|].
        now replace (S i0 + k)%nat with (i0 + S k)%nat by lia.
      * now apply NF in E.
Qed.

End MoreVisits.

Lemma findM_some {A : Type} (p : A -> result bool) (l : list A) (a : A) :
  findM p l = Ok (Some a) ->
  exists before after,
    l = before ++ a :: after /\ p a = Ok true
    /\ Forall (fun x => p x = Ok false) before.
Proof.
  induction l as [|x l IH]; intros H; cbn in H; [discriminate|].
  destruct (p x) as [[|]| |] eqn:E; cbn in H; try discriminate.
  - injection H as <-. exists [], l. repeat split; [assumption|constructor].
  - destruct (IH H) as (before & after & -> & Pa & Fb).
    exists (x :: before), after. repeat split; [assumption|].
    now constructor.
Qed.

Lemma findM_none {A : Type} (p : A -> result bool) (l : list A) :
  findM p l = Ok None -> Forall (fun x => p x = Ok false) l.
Proof.
  induction l as [|x l IH]; intros H; cbn in H; [constructor|].
  destruct (p x) as [[|]| |] eqn:E; cbn in H; try discriminate.
  constructor; [assumption|now apply IH].
Qed.

Lemma findM_answers {A : Type} (p : A -> result bool) (l : list A) :
  (forall x, exists c, p x = Ok c) -> exists r, findM p l = Ok r.
Proof.
  intros H. induction l as [|x l IH]; cbn; [eauto|].
  destruct (H x) as [[|] E]; rewrite E; cbn; eauto.
Qed.

(** ** Collisions, cell by cell *)

Lemma cellCollides_occupied (g : Grid) (x y : Z) (r c : nat) (cell : Z) :
  (Z.to_nat Constants.GRID_HEIGHT <= List.length g)%nat ->
  cellCollides g x y r cell c
  = Ok (filled cell
        && ((x + Z.of_nat c <? 0) || (x + Z.of_nat c >=? Constants.GRID_WIDTH)
            || (y + Z.of_nat r <? 0)
            || (y + Z.of_nat r >=? Constants.GRID_HEIGHT)
            || occupied g (y + Z.of_nat r) (x + Z.of_nat c))).
Proof.
  intros W. unfold cellCollides, occupied.
  destruct (filled cell); cbn [negb andb]; [|reflexivity].
  destruct ((x + Z.of_nat c <? 0) || (x + Z.of_nat c >=? Constants.GRID_WIDTH)
            || (y + Z.of_nat r <? 0)
            || (y + Z.of_nat r >=? Constants.GRID_HEIGHT)) eqn:E;
    cbn [orb]; [reflexivity|].
  apply orb_false_iff in E as [E E4].
  apply orb_false_iff in E as [E E3].
  apply Z.ltb_ge in E3. rewrite Z.geb_leb in E4. apply Z.leb_gt in E4.
  destruct (lookupZ g (y + Z.of_nat r)) as [row|] eqn:L; [reflexivity|].
  exfalso. unfold lookupZ in L.
  destruct (y + Z.of_nat r <? 0) eqn:N; [apply Z.ltb_lt in N; lia|].
  apply nth_error_None in L. lia.
Qed.

Lemma isCollision_cells (g : Grid) (b : Block) (x y : Z) :
  (Z.to_nat Constants.GRID_HEIGHT <= List.length g)%nat ->
  (isCollision g b x y = Ok true <->
   exists r c : nat,
     shapeFilledAt (shape b) (Z.of_nat r) (Z.of_nat c) = true /\
     (x + Z.of_nat c < 0 \/ Constants.GRID_WIDTH <= x + Z.of_nat c \/
      y + Z.of_nat r < 0 \/ Constants.GRID_HEIGHT <= y + Z.of_nat r \/
      occupied g (y + Z.of_nat r) (x + Z.of_nat c) = true)).
Proof.
  intros W.
  assert (S : forall (r c : nat) row cell,
             nth_error (shape b) r = Some row -> nth_error row c = Some cell ->
             shapeFilledAt (shape b) (Z.of_nat r) (Z.of_nat c) = filled cell).
  { intros r c row cell Hr Hc. unfold shapeFilledAt, lookupZ.
    destruct (Z.of_nat r <? 0) eqn:N; [apply Z.ltb_lt in N; lia|].
    rewrite Nat2Z.id, Hr.
    destruct (Z.of_nat c <? 0) eqn:N'; [apply Z.ltb_lt in N'; lia|].
    now rewrite Nat2Z.id, Hc. }
  assert (D : forall (r c : nat),
             ((x + Z.of_nat c <? 0) || (x + Z.of_nat c >=? Constants.GRID_WIDTH)
              || (y + Z.of_nat r <? 0)
              || (y + Z.of_nat r >=? Constants.GRID_HEIGHT)
              || occupied g (y + Z.of_nat r) (x + Z.of_nat c)) = true
             <-> (x + Z.of_nat c < 0 \/ Constants.GRID_WIDTH <= x + Z.of_nat c \/
                  y + Z.of_nat r < 0 \/ Constants.GRID_HEIGHT <= y + Z.of_nat r \/
                  occupied g (y + Z.of_nat r) (x + Z.of_nat c) = true)).
  { intros r c. rewrite !orb_true_iff, !Z.ltb_lt, !Z.geb_leb, !Z.leb_le.
    tauto. }
  split.
  - intros H. apply some_from_true_inv in H as (r & row & Hr & H).
    apply some_from_true_inv in H as (c & cell & Hc & H). cbn in H.
    rewrite cellCollides_occupied in H by assumption.
    injection H as H. apply andb_true_iff in H as [F H].
    exists r, c. rewrite (S r c row cell Hr Hc). split; [assumption|].
    now apply D.
  - intros (r & c & F & H).
    destruct (isCollision_answers g b x y W) as [[|] E]; [assumption|].
    exfalso. unfold shapeFilledAt, lookupZ in F.
    destruct (Z.of_nat r <? 0) eqn:N; [discriminate|].
    rewrite Nat2Z.id in F.
    destruct (nth_error (shape b) r) as [row|] eqn:Hr; [|discriminate].
    destruct (Z.of_nat c <? 0) eqn:N'; [discriminate|].
    rewrite Nat2Z.id in F.
    destruct (nth_error row c) as [cell|] eqn:Hc; [|discriminate].
    pose proof (some_from_false_inv _ _ _ E _ _ Hr) as H1. cbn in H1.
    pose proof (some_from_false_inv _ _ _ H1 _ _ Hc) as H2. cbn in H2.
    rewrite cellCollides_occupied in H2 by assumption.
    apply D in H. rewrite F, H in H2. discriminate.
Qed.

(** X1. On a grid that has its 20 rows, [isCollision] does not throw: it
    answers true or false.  It answers true exactly when some filled cell
    of the shape, moved by (x, y), is left or right of the board, above or
    below it, or on an occupied cell of the grid; it answers false
    exactly when every filled cell is on a free cell of the board. *)
Theorem isCollision_iff (g : Grid) (b : Block) (x y : Z) :
  (Z.to_nat Constants.GRID_HEIGHT <= List.length g)%nat ->
  (exists answer, isCollision g b x y = Ok answer)
  /\ (isCollision g b x y = Ok true <->
      exists r c : nat,
        shapeFilledAt (shape b) (Z.of_nat r) (Z.of_nat c) = true /\
        (x + Z.of_nat c < 0 \/ Constants.GRID_WIDTH <= x + Z.of_nat c \/
         y + Z.of_nat r < 0 \/ Constants.GRID_HEIGHT <= y + Z.of_nat r \/
         occupied g (y + Z.of_nat r) (x + Z.of_nat c) = true))
  /\ (isCollision g b x y = Ok false <->
      forall r c : nat,
        shapeFilledAt (shape b) (Z.of_nat r) (Z.of_nat c) = true ->
        0 <= x + Z.of_nat c < Constants.GRID_WIDTH /\
        0 <= y + Z.of_nat r < Constants.GRID_HEIGHT /\
        occupied g (y + Z.of_nat r) (x + Z.of_nat c) = false).
Proof.
  intros W. pose proof (isCollision_cells g b x y W) as T.
  destruct (isCollision_answers g b x y W) as [answer A].
  split; [eauto|]. split; [exact T|]. split.
  - intros F r c Fill.
    destruct (occupied g (y + Z.of_nat r) (x + Z.of_nat c)) eqn:O.
    + assert (E : isCollision g b x y = Ok true); [|congruence].
      apply T. exists r, c. rewrite O. tauto.
    + assert (N : ~ (x + Z.of_nat c < 0
                     \/ Constants.GRID_WIDTH <= x + Z.of_nat c
                     \/ y + Z.of_nat r < 0
                     \/ Constants.GRID_HEIGHT <= y + Z.of_nat r)).
      { intros Out.
        assert (E : isCollision g b x y = Ok true); [|congruence].
        apply T. exists r, c. tauto. }
      repeat split; lia.
  - intros H. destruct answer; [|exact A].
    apply T in A as (r & c & Fill & Out).
    destruct (H r c Fill) as (Bx & By & O). rewrite O in Out.
    destruct Out as [?|[?|[?|[?|?]]]]; lia || discriminate.
Qed.

Lemma isCollision_iff_witness :
  (exists answer, isCollision stoneGrid pieceO 3 1 = Ok answer)
  /\ (isCollision stoneGrid pieceO 3 1 = Ok true <->
      exists r c : nat,
        shapeFilledAt (shape pieceO) (Z.of_nat r) (Z.of_nat c) = true /\
        (3 + Z.of_nat c < 0 \/ Constants.GRID_WIDTH <= 3 + Z.of_nat c \/
         1 + Z.of_nat r < 0 \/ Constants.GRID_HEIGHT <= 1 + Z.of_nat r \/
         occupied stoneGrid (1 + Z.of_nat r) (3 + Z.of_nat c) = true))
  /\ (isCollision stoneGrid pieceO 3 1 = Ok false <->
      forall r c : nat,
        shapeFilledAt (shape pieceO) (Z.of_nat r) (Z.of_nat c) = true ->
        0 <= 3 + Z.of_nat c < Constants.GRID_WIDTH /\
        0 <= 1 + Z.of_nat r < Constants.GRID_HEIGHT /\
        occupied stoneGrid (1 + Z.of_nat r) (3 + Z.of_nat c) = false).
Proof.
  apply (isCollision_iff stoneGrid pieceO 3 1).
  apply Nat.leb_le. reflexivity.
Defined.

(** ** Burning a piece into the grid *)

Lemma updateRow_filled (b : Block) (x y : Z) (r : nat) (cell : Cell) (c : nat) :
  updateRow b x y r cell c
  = if shapeFilledAt (shape b) (Z.of_nat r - y) (Z.of_nat c - x)
    then Some (color b) else cell.
Proof.
  unfold updateRow, shapeFilledAt.
  destruct (lookupZ (shape b) _) as [row|]; [|reflexivity].
  destruct (lookupZ row _) as [v|]; reflexivity.
Qed.

Lemma updateGrid_nth (g : Grid) (b : Block) (x y : Z) :
  List.length (updateGrid g b x y) = List.length g /\
  forall r row, nth_error g r = Some row ->
    exists row',
      nth_error (updateGrid g b x y) r = Some row' /\
      List.length row' = List.length row /\
      forall c cell, nth_error row c = Some cell ->
        nth_error row' c
        = Some (if shapeFilledAt (shape b) (Z.of_nat r - y) (Z.of_nat c - x)
                then Some (color b) else cell).
Proof.
  unfold updateGrid, mapi. split; [apply mapi_from_length|].
  intros r row Hr. rewrite mapi_from_nth, Hr. cbn.
  eexists. split; [reflexivity|]. split; [apply mapi_from_length|].
  intros c cell Hc. rewrite mapi_from_nth, Hc. cbn.
  now rewrite updateRow_filled.
Qed.

(** X2. [updateGrid] keeps the number of rows and the length of every
    row, whatever the piece and the position; the cell at row r, column c
    of the result is the colour of the piece when the shape has a filled
    cell at (r - y, c - x) and the cell of the grid otherwise.  Parts of
    the piece outside the grid are dropped silently. *)
Theorem updateGrid_cells (g : Grid) (b : Block) (x y : Z) :
  List.length (updateGrid g b x y) = List.length g /\
  forall r row, nth_error g r = Some row ->
    exists row',
      nth_error (updateGrid g b x y) r = Some row' /\
      List.length row' = List.length row /\
      forall c cell, nth_error row c = Some cell ->
        nth_error row' c
        = Some (if shapeFilledAt (shape b) (Z.of_nat r - y) (Z.of_nat c - x)
                then Some (color b) else cell).
Proof. exact (updateGrid_nth g b x y). Qed.

Lemma updateGrid_rows (g : Grid) (b : Block) (x y : Z) (n : nat) :
  Forall (fun row => List.length row = n) g ->
  Forall (fun row => List.length row = n) (updateGrid g b x y).
Proof.
  intros H. apply Forall_forall. intros row' Hin.
  apply In_nth_error in Hin as [r Hr].
  destruct (nth_error g r) as [row|] eqn:E.
  - destruct (proj2 (updateGrid_nth g b x y) r row E) as (row2 & H2 & L & _).
    rewrite Hr in H2. injection H2 as <-. rewrite L.
    rewrite Forall_forall in H. apply H. eapply nth_error_In; eauto.
  - apply nth_error_None in E.
    assert (r < List.length (updateGrid g b x y))%nat
      by (apply nth_error_Some; congruence).
    rewrite (proj1 (updateGrid_nth g b x y)) in *. lia.
Qed.

(** ** The rows [linesCleared] reports *)

Lemma reduce_collect_In (g : Grid) (i y : nat) :
  In y (reduce_from collectFull g i []) <->
  exists k row, y = (i + k)%nat /\ nth_error g k = Some row
                /\ fullRow row = true.
Proof.
  revert i. induction g as [|r g IH]; intros i.
  - cbn. split; [tauto|]. intros (k & row & _ & H & _). now destruct k.
  - rewrite reduce_collect_cons. split.
    + intros H.
      assert (T : In y (reduce_from collectFull g (S i) []) ->
                  exists k row, y = (i + k)%nat
                                /\ nth_error (r :: g) k = Some row
                                /\ fullRow row = true).
      { intros H'. apply IH in H' as (k & row & -> & Hk & F).
        exists (S k), row. repeat split; [lia|assumption|assumption]. }
      destruct (fullRow r) eqn:F; [|now apply T].
      destruct H as [<-|H]; [|now apply T].
      exists 0%nat, r. repeat split; [lia|assumption].
    + intros (k & row & -> & Hk & F). destruct k as [|k]; cbn in Hk.
      * injection Hk as ->. rewrite F. left. lia.
      * assert (In (i + S k)%nat (reduce_from collectFull g (S i) [])).
        { apply IH. exists k, row. repeat split; [lia|assumption|assumption]. }
        destruct (fullRow r); [now right|assumption].
Qed.

(** X3. [linesCleared] returns, in strictly ascending order, exactly the
    indices of the rows all of whose cells are truthy (a row without
    cells counts as full). *)
Theorem linesCleared_iff (g : Grid) :
  ascending (linesCleared g) /\
  forall y, In y (linesCleared g) <->
            exists row, nth_error g y = Some row /\ fullRow row = true.
Proof.
  split; [apply linesCleared_ascending|].
  intros y. unfold linesCleared. rewrite reduce_collect_In. split.
  - intros (k & row & -> & H & F). now exists row.
  - intros (row & H & F). now exists y, row.
Qed.

(** X4. An index past the last row makes [updateGridAfterClearance]
    remove nothing and still put an empty row on top: the grid gets one
    row taller. *)
Theorem updateGridAfterClearance_past_end (g : Grid) (y : nat) :
  (List.length g <= y)%nat ->
  updateGridAfterClearance g [y] = emptyRow :: g.
Proof.
  intros H. unfold updateGridAfterClearance. cbn [fold_left].
  unfold clearLine, splice1.
  rewrite firstn_all2 by lia. rewrite skipn_all2 by lia.
  now rewrite app_nil_r.
Qed.

Lemma updateGridAfterClearance_past_end_witness :
  updateGridAfterClearance [stoneRow] [1%nat] = [emptyRow; stoneRow].
Proof.
  apply (updateGridAfterClearance_past_end [stoneRow] 1). cbn. lia.
Defined.

(** ** Rotation of a shape *)

Lemma mapiM_from_fuel_free {A B : Type} (f : A -> nat -> result B)
  (l : list A) (i0 : nat) :
  (forall a k, f a k <> OutOfFuel) -> mapiM_from f l i0 <> OutOfFuel.
Proof.
  intros NF. revert i0. induction l as [|a l IH]; intros i0; cbn;
    [discriminate|].
  specialize (NF a i0). destruct (f a i0) as [b| |]; cbn;
    [|discriminate|congruence].
  specialize (IH (S i0)).
  destruct (mapiM_from f l (S i0)); cbn; [discriminate|discriminate|congruence].
Qed.

Lemma nth_error_default {A : Type} (l : list A) (i : nat) (d : A) :
  match nth_error l i with Some v => v | None => d end = nth i l d.
Proof.
  revert i. induction l as [|a l IH]; intros [|i]; cbn; try reflexivity.
  apply IH.
Qed.

Lemma lookupZ_nat {A : Type} (l : list A) (i : nat) :
  lookupZ l (Z.of_nat i) = nth_error l i.
Proof.
  unfold lookupZ. destruct (Z.of_nat i <? 0) eqn:N.
  - apply Z.ltb_lt in N. lia.
  - now rewrite Nat2Z.id.
Qed.

(** The callback of the inner [map] of the rotation. *)
Lemma rotation_cell (m : Shape) (i j : nat) :
  (j < List.length m)%nat ->
  match lookupZ m (Z.of_nat (List.length m) - 1 - Z.of_nat j) with
  | None => TypeError
  | Some r => Ok match lookupZ r (Z.of_nat i) with Some v => v | None => 0 end
  end = Ok (shapeCell m (List.length m - 1 - j) i).
Proof.
  intros H.
  replace (Z.of_nat (List.length m) - 1 - Z.of_nat j)
    with (Z.of_nat (List.length m - 1 - j)) by lia.
  rewrite lookupZ_nat.
  destruct (nth_error m (List.length m - 1 - j)) as [r|] eqn:E.
  - rewrite lookupZ_nat, nth_error_default. unfold shapeCell.
    now rewrite (nth_error_nth _ _ _ E).
  - apply nth_error_None in E. lia.
Qed.

Lemma rotateMatrix_turned (m : Shape) :
  Forall (fun row => ~ tooLong m row) m -> rotateMatrix m = Ok (turned m).
Proof.
  intros H. unfold rotateMatrix, defaultRotationStrategy, turned, mapi.
  apply mapiM_from_ok. intros i row Hi. cbn [Nat.add].
  apply mapiM_from_ok. intros j cell Hj. cbn [Nat.add].
  apply rotation_cell.
  rewrite Forall_forall in H.
  assert (~ tooLong m row) by (apply H; eapply nth_error_In; eauto).
  assert (j < List.length row)%nat by (apply nth_error_Some; congruence).
  unfold tooLong in *. lia.
Qed.

Lemma rotateMatrix_tooLong (m : Shape) :
  Exists (tooLong m) m -> rotateMatrix m = TypeError.
Proof.
  intros H. apply Exists_exists in H as (row & Hin & L).
  apply In_nth_error in Hin as [i Hi].
  unfold rotateMatrix, defaultRotationStrategy.
  assert (NF : forall (i : nat) (c : Z) (j : nat),
             match lookupZ m (Z.of_nat (List.length m) - 1 - Z.of_nat j) with
             | None => TypeError
             | Some r =>
                 Ok match lookupZ r (Z.of_nat i) with
                    | Some v => v | None => 0 end
             end <> OutOfFuel).
  { intros. destruct (lookupZ m _); discriminate. }
  apply mapiM_from_throws.
  - intros r k. apply mapiM_from_fuel_free. apply NF.
  - exists i, row. split; [assumption|].
    apply mapiM_from_throws; [apply NF|].
    unfold tooLong in L.
    destruct (nth_error row (List.length m)) as [cell|] eqn:E.
    + exists (List.length m), cell. split; [assumption|].
      cbn [Nat.add]. unfold lookupZ.
      destruct (Z.of_nat (List.length m) - 1 - Z.of_nat (List.length m) <? 0)
        eqn:N; [reflexivity|].
      apply Z.ltb_ge in N. lia.
    + apply nth_error_None in E. lia.
Qed.

Lemma mapi_rows_length {A B : Type} (f : nat -> A -> nat -> B)
  (l : list (list A)) (i0 : nat) :
  List.map (@List.length B)
    (mapi_from (fun row i => mapi_from (f i) row 0) l i0)
  = List.map (@List.length A) l.
Proof.
  revert i0. induction l as [|row l IH]; intros i0; cbn; [reflexivity|].
  now rewrite mapi_from_length, IH.
Qed.

(** X5. [rotateMatrix] throws a TypeError exactly when some row has more
    cells than the matrix has rows; otherwise it returns a matrix with the
    rows' lengths of its argument whose cell (i, j) is the cell
    (N - j, i) of the argument (0 where the argument has no such cell). *)
Theorem rotateMatrix_throws_iff (m : Shape) :
  (rotateMatrix m = TypeError <-> Exists (tooLong m) m)
  /\ (forall m', rotateMatrix m = Ok m' <->
                 (Forall (fun row => ~ tooLong m row) m /\ m' = turned m))
  /\ List.map (@List.length Z) (turned m) = List.map (@List.length Z) m.
Proof.
  assert (D : {Forall (fun row => ~ tooLong m row) m}
              + {Exists (tooLong m) m}).
  { destruct (Forall_Exists_dec (fun row => ~ tooLong m row)
                (fun row => match lt_dec (List.length m) (List.length row) with
                            | left l => right (fun n => n l)
                            | right n => left n
                            end) m) as [F|E]; [now left|right].
    apply Exists_exists in E as (row & Hin & L).
    apply Exists_exists. exists row. split; [assumption|].
    unfold tooLong in *. lia. }
  split; [|split].
  - split; [|apply rotateMatrix_tooLong].
    intros H. destruct D as [F|E]; [|assumption].
    rewrite (rotateMatrix_turned m F) in H. discriminate.
  - intros m'. split.
    + intros H. destruct D as [F|E].
      * rewrite (rotateMatrix_turned m F) in H. injection H as <-. now split.
      * rewrite (rotateMatrix_tooLong m E) in H. discriminate.
    + intros [F ->]. now apply rotateMatrix_turned.
  - apply mapi_rows_length.
Qed.

(** *** Square shapes *)

Lemma turned_length (m : Shape) : List.length (turned m) = List.length m.
Proof. apply mapi_from_length. Qed.

Lemma square_row (m : Shape) (i : nat) :
  square m -> (i < List.length m)%nat ->
  List.length (nth i m []) = List.length m.
Proof.
  intros S H. unfold square in S. rewrite Forall_forall in S.
  apply S. now apply nth_In.
Qed.

Lemma square_fits (m : Shape) :
  square m -> Forall (fun row => ~ tooLong m row) m.
Proof.
  intros S. eapply Forall_impl; [|exact S]. cbn. unfold tooLong. intros; lia.
Qed.

Lemma turned_row (m : Shape) (i : nat) (row : list Z) :
  nth_error m i = Some row ->
  nth_error (turned m) i
  = Some (mapi (fun (_ : Z) j => shapeCell m (List.length m - 1 - j) i) row).
Proof.
  intros H. unfold turned, mapi. now rewrite mapi_from_nth, H.
Qed.

Lemma turned_square (m : Shape) : square m -> square (turned m).
Proof.
  intros S. unfold square. rewrite turned_length.
  apply Forall_forall. intros row' Hin.
  apply In_nth_error in Hin as [i Hi].
  assert (L : (i < List.length m)%nat).
  { rewrite <- turned_length. apply nth_error_Some. congruence. }
  destruct (nth_error m i) as [row|] eqn:E;
    [|apply nth_error_None in E; lia].
  rewrite (turned_row m i row E) in Hi. injection Hi as <-.
  unfold mapi. rewrite mapi_from_length.
  rewrite <- (nth_error_nth _ _ [] E). now apply square_row.
Qed.

Lemma turned_cell (m : Shape) (i j : nat) :
  square m -> (i < List.length m)%nat -> (j < List.length m)%nat ->
  shapeCell (turned m) i j = shapeCell m (List.length m - 1 - j) i.
Proof.
  intros S Hi Hj.
  destruct (nth_error m i) as [row|] eqn:E;
    [|apply nth_error_None in E; lia].
  assert (Lr : List.length row = List.length m).
  { rewrite <- (nth_error_nth _ _ [] E). now apply square_row. }
  destruct (nth_error row j) as [cell|] eqn:Ej;
    [|apply nth_error_None in Ej; lia].
  unfold shapeCell at 1.
  rewrite (nth_error_nth _ _ [] (turned_row m i row E)).
  apply nth_error_nth. unfold mapi. now rewrite mapi_from_nth, Ej.
Qed.

Lemma square_ext (m m' : Shape) :
  square m -> square m' -> List.length m = List.length m' ->
  (forall i j, (i < List.length m)%nat -> (j < List.length m)%nat ->
               shapeCell m i j = shapeCell m' i j) ->
  m = m'.
Proof.
  intros S S' L H. apply (nth_ext m m' [] []); [assumption|].
  intros i Hi. apply (nth_ext _ _ 0 0).
  - rewrite !square_row by (assumption || lia). assumption.
  - intros j Hj. rewrite square_row in Hj by assumption. now apply H.
Qed.

Lemma turned_four_times (m : Shape) :
  square m -> turned (turned (turned (turned m))) = m.
Proof.
  intros S.
  pose proof (turned_square _ S) as S1.
  pose proof (turned_square _ S1) as S2.
  pose proof (turned_square _ S2) as S3.
  pose proof (turned_square _ S3) as S4.
  apply square_ext; try assumption.
  - now rewrite !turned_length.
  - rewrite !turned_length. intros i j Hi Hj.
    rewrite turned_cell by (rewrite ?turned_length; assumption || lia).
    rewrite !turned_length.
    rewrite turned_cell by (rewrite ?turned_length; assumption || lia).
    rewrite !turned_length.
    rewrite turned_cell by (rewrite ?turned_length; assumption || lia).
    rewrite !turned_length.
    rewrite turned_cell by (assumption || lia).
    f_equal; lia.
Qed.

Lemma hasFilled_turned (m : Shape) :
  square m -> hasFilled m = true -> hasFilled (turned m) = true.
Proof.
  intros S H.
  destruct (hasFilled_cell (mkBlock m "") H)
    as (r & row & c & cell & Hr & Hc & F). cbn in Hr.
  assert (Lr : (r < List.length m)%nat) by (apply nth_error_Some; congruence).
  assert (Lrow : List.length row = List.length m).
  { rewrite <- (nth_error_nth _ _ [] Hr). now apply square_row. }
  assert (Lc : (c < List.length m)%nat).
  { rewrite <- Lrow. apply nth_error_Some. congruence. }
  pose proof (turned_square _ S) as S1.
  unfold hasFilled. apply existsb_exists.
  exists (nth c (turned m) []). split.
  - apply nth_In. now rewrite turned_length.
  - apply existsb_exists.
    exists (shapeCell (turned m) c (List.length m - 1 - r)). split.
    + unfold shapeCell. apply nth_In.
      rewrite square_row by (rewrite ?turned_length; assumption).
      rewrite turned_length. lia.
    + rewrite turned_cell by (assumption || lia).
      replace (List.length m - 1 - (List.length m - 1 - r))%nat with r by lia.
      unfold shapeCell. rewrite (nth_error_nth _ _ [] Hr).
      now rewrite (nth_error_nth _ _ 0 Hc).
Qed.

Lemma turn_of_square (m : Shape) :
  square m ->
  exists m1 m2 m3,
    rotateMatrix m = Ok m1 /\
    square m1 /\ List.length m1 = List.length m /\
    (forall i j, (i < List.length m)%nat -> (j < List.length m)%nat ->
                 shapeCell m1 i j = shapeCell m (List.length m - 1 - j) i) /\
    hasFilled m1 = hasFilled m /\
    rotateMatrix m1 = Ok m2 /\ rotateMatrix m2 = Ok m3 /\
    rotateMatrix m3 = Ok m.
Proof.
  intros S.
  pose proof (turned_square _ S) as S1.
  pose proof (turned_square _ S1) as S2.
  pose proof (turned_square _ S2) as S3.
  exists (turned m), (turned (turned m)), (turned (turned (turned m))).
  split; [apply rotateMatrix_turned, square_fits, S|].
  split; [assumption|]. split; [apply turned_length|].
  split; [intros; now apply turned_cell|].
  split.
  - destruct (hasFilled m) eqn:F; [now apply hasFilled_turned|].
    destruct (hasFilled (turned m)) eqn:F1; [|reflexivity].
    pose proof (hasFilled_turned _ S1 F1) as F2.
    pose proof (hasFilled_turned _ S2 F2) as F3.
    pose proof (hasFilled_turned _ S3 F3) as F4.
    rewrite (turned_four_times m S) in F4. congruence.
  - split; [apply rotateMatrix_turned, square_fits, S1|].
    split; [apply rotateMatrix_turned, square_fits, S2|].
    rewrite <- (turned_four_times m S) at 2.
    apply rotateMatrix_turned, square_fits, S3.
Qed.

(** X6. On a square shape (as many cells in each row as rows)
    [rotateMatrix] returns a square shape of the same size whose cell
    (i, j) is the cell (N - j, i) of the argument, a quarter turn
    clockwise; it has a filled cell exactly when the argument has one,
    and four rotations in a row give the shape back. *)
Theorem rotateMatrix_square (m : Shape) :
  square m ->
  exists m1 m2 m3,
    rotateMatrix m = Ok m1 /\
    square m1 /\ List.length m1 = List.length m /\
    (forall i j, (i < List.length m)%nat -> (j < List.length m)%nat ->
                 shapeCell m1 i j = shapeCell m (List.length m - 1 - j) i) /\
    hasFilled m1 = hasFilled m /\
    rotateMatrix m1 = Ok m2 /\ rotateMatrix m2 = Ok m3 /\
    rotateMatrix m3 = Ok m.
Proof. exact (turn_of_square m). Qed.

Lemma rotateMatrix_square_witness :
  exists m1 m2 m3,
    rotateMatrix [[0; 1; 0]; [1; 1; 1]; [0; 0; 0]] = Ok m1 /\
    square m1 /\ List.length m1 = 3%nat /\
    (forall i j, (i < 3)%nat -> (j < 3)%nat ->
                 shapeCell m1 i j
                 = shapeCell [[0; 1; 0]; [1; 1; 1]; [0; 0; 0]] (3 - 1 - j) i) /\
    hasFilled m1 = true /\
    rotateMatrix m1 = Ok m2 /\ rotateMatrix m2 = Ok m3 /\
    rotateMatrix m3 = Ok [[0; 1; 0]; [1; 1; 1]; [0; 0; 0]].
Proof.
  apply (rotateMatrix_square [[0; 1; 0]; [1; 1; 1]; [0; 0; 0]]).
  repeat constructor.
Defined.

(** ** The seeds of a game *)

(** From 2^53 on, the binary64 value of an integer is an even integer, not
    below 2^53. *)
Lemma round_double_big (n : Z) :
  2 ^ 53 <= n -> Z.even (round_double n) = true /\ 2 ^ 53 <= round_double n.
Proof.
  intros H. unfold round_double.
  assert (P53 : 0 < 2 ^ 53) by reflexivity.
  rewrite Z.abs_eq by lia.
  destruct (n <? 2 ^ 53) eqn:E; [apply Z.ltb_lt in E; lia|].
  rewrite Z.sgn_pos by lia. rewrite Z.mul_1_l.
  set (e := Z.log2 n - 52).
  assert (L : 53 <= Z.log2 n) by (apply Z.log2_le_pow2; lia).
  assert (He : 1 <= e) by (unfold e; lia).
  set (q := Z.shiftr n e).
  set (q' := if n - Z.shiftl q e <? Z.shiftl 1 (e - 1) then q
             else if Z.shiftl 1 (e - 1) <? n - Z.shiftl q e then q + 1
                  else if Z.even q then q else q + 1).
  assert (Hq : 2 ^ 52 <= q).
  { unfold q. rewrite Z.shiftr_div_pow2 by lia.
    apply Z.div_le_lower_bound; [apply Z.pow_pos_nonneg; lia|].
    rewrite <- Z.pow_add_r by lia.
    replace (e + 52) with (Z.log2 n) by (unfold e; lia).
    apply Z.log2_spec. lia. }
  assert (Hq' : q <= q').
  { unfold q'.
    repeat match goal with
           | |- context [if ?c then _ else _] => destruct c
           end; lia. }
  rewrite Z.shiftl_mul_pow2 by lia.
  replace e with (1 + (e - 1)) at 1 2 by lia.
  rewrite Z.pow_add_r by lia. change (2 ^ 1) with 2.
  assert (Pe : 1 <= 2 ^ (e - 1)) by (apply (Z.pow_le_mono_r 2 0 (e - 1)); lia).
  split.
  - rewrite Z.mul_assoc, (Z.mul_comm q' 2), <- Z.mul_assoc.
    now rewrite Z.even_mul.
  - change (2 ^ 53) with (2 ^ 52 * 2). nia.
Qed.

(** The seed whose exact successor would be 2^31 - 1 is not among those
    the code hashes exactly. *)
Lemma lcg_small_not_largest (seed : Z) :
  0 <= seed <= 8162278 -> lcg seed <> 2147483647.
Proof.
  intros H E. unfold lcg, RNG.a, RNG.c, RNG.m in E.
  change 0x80000000 with 2147483648 in E.
  pose proof (Z.div_mod (1103515245 * seed + 12345) 2147483648) as D.
  rewrite E in D.
  set (t := (1103515245 * seed + 12345) / 2147483648) in *.
  assert (M : (1857678181 * (1103515245 * seed)) mod 2147483648
              = (1857678181 * (2147483648 * t + 2147483647 - 12345))
                  mod 2147483648) by (f_equal; lia).
  replace (1857678181 * (1103515245 * seed))
    with (seed + (954594553 * seed) * 2147483648) in M by lia.
  replace (1857678181 * (2147483648 * t + 2147483647 - 12345))
    with (230538014 + (1857678181 * t + 1857667501) * 2147483648)
    in M by lia.
  rewrite !Z.mod_add in M by lia.
  rewrite (Z.mod_small seed) in M by lia.
  rewrite (Z.mod_small 230538014) in M by lia.
  lia.
Qed.

Lemma rem_even_below (h : Z) :
  0 <= h -> Z.even h = true -> 0 <= Z.rem h RNG.m < 2147483647.
Proof.
  intros P E. unfold RNG.m. change 0x80000000 with 2147483648.
  rewrite Z.rem_mod_nonneg by lia.
  pose proof (Z.mod_pos_bound h 2147483648 ltac:(lia)) as B.
  pose proof (Z.div_mod h 2147483648 ltac:(lia)) as D.
  apply Z.even_spec in E as [k Hk]. lia.
Qed.

Lemma hash_below (seed : Z) :
  0 <= seed ->
  0 <= RNG.hash seed < 2147483647
  /\ 0 <= RNG.currentValue (RNG.next (RNG.mk seed)) <= 6
  /\ exists b, fst (randomBlock (RNG.next (RNG.mk seed))) = Some b
               /\ In b shapes.
Proof.
  intros H.
  assert (R : 0 <= RNG.hash seed < 2147483647).
  { assert (B : 2 ^ 53 = 9007199254740992) by reflexivity.
    destruct (Z_lt_le_dec (RNG.a * seed + RNG.c) (2 ^ 53)) as [S|S].
    - unfold RNG.a, RNG.c in S. rewrite B in S.
      assert (Hs : 0 <= seed <= 8162278) by lia.
      rewrite (hash_exact_small seed Hs).
      pose proof (lcg_small_not_largest seed Hs) as N.
      unfold lcg, RNG.m in *. change 0x80000000 with 2147483648 in *.
      pose proof (Z.mod_pos_bound (RNG.a * seed + RNG.c) 2147483648
                    ltac:(lia)). lia.
    - unfold RNG.hash.
      assert (Big : 2 ^ 53 <= round_double (RNG.a * seed) + RNG.c).
      { destruct (Z_lt_le_dec (RNG.a * seed) (2 ^ 53)) as [P|P].
        - rewrite round_double_exact; [assumption|].
          unfold RNG.a in *. rewrite Z.abs_eq by lia. assumption.
        - destruct (round_double_big _ P) as [_ G]. unfold RNG.c. lia. }
      destruct (round_double_big _ Big) as [E G].
      apply rem_even_below; [lia|assumption]. }
  split; [exact R|].
  split; [apply (scale_range _ R)|].
  apply (randomBlock_defined _ R).
Qed.

(** X7. For a seed from 0 to 2^53, integers that a JS number holds
    exactly and whose product with [a] is far from overflow, the hash is
    never 2^31 - 1, the one value whose selector is 7: it is in
    [0, 2^31 - 2], its selector is in [0,6], and the piece drawn from the
    advanced generator is one of the catalogue. *)
Theorem hash_range (seed : Z) :
  0 <= seed <= 2 ^ 53 ->
  0 <= RNG.hash seed < 2147483647
  /\ 0 <= RNG.currentValue (RNG.next (RNG.mk seed)) <= 6
  /\ exists b, fst (randomBlock (RNG.next (RNG.mk seed))) = Some b
               /\ In b shapes.
Proof. intros [H _]. exact (hash_below seed H). Qed.

Lemma hash_range_witness :
  0 <= RNG.hash 230538014 < 2147483647
  /\ 0 <= RNG.currentValue (RNG.next (RNG.mk 230538014)) <= 6
  /\ exists b, fst (randomBlock (RNG.next (RNG.mk 230538014))) = Some b
               /\ In b shapes.
Proof.
  apply (hash_range 230538014).
  change (2 ^ 53) with 9007199254740992. lia.
Defined.

(** X8. For the seeds 0 to 8162278, for which [a * seed + c] is below
    2^53, [RNG.hash] is the linear congruential step
    [(a * seed + c) mod m] exactly. *)
Theorem hash_is_lcg_for_small_seeds (seed : Z) :
  0 <= seed <= 8162278 ->
  RNG.hash seed = (1103515245 * seed + 12345) mod 2 ^ 31.
Proof. exact (hash_exact_small seed). Qed.

Lemma hash_is_lcg_for_small_seeds_witness :
  RNG.hash 999 = (1103515245 * 999 + 12345) mod 2 ^ 31.
Proof. apply (hash_is_lcg_for_small_seeds 999). lia. Defined.

(** ** What the actions return *)

Lemma Move_apply_inv direction magnitude s s' :
  Move_apply direction magnitude s = Ok s' ->
  exists b, block s = Some b /\
    let burned := updateGrid (grid s) b (blockX s) (blockY s) in
    let '(x, y) := moveBlock s direction magnitude in
    (isCollision (grid s) b x y = Ok false /\ s' = moveTo s x y)
    \/ (isCollision (grid s) b x y = Ok true /\
        ((direction = Y /\ magnitude > 0 /\ isGameEnd burned = Ok true
          /\ s' = endGame s)
         \/ (direction = Y /\ magnitude > 0 /\ isGameEnd burned = Ok false
             /\ s' = landed s burned)
         \/ ((direction = X \/ magnitude <= 0) /\ s' = s))).
Proof.
  unfold Move_apply, moveBlock, theBlock.
  destruct (block s) as [b|] eqn:B; cbn [bind]; [|discriminate].
  intros H. exists b. split; [reflexivity|]. cbn zeta.
  destruct (isCollision _ _ _ _) as [[|]| |]; cbn [bind] in H;
    try discriminate.
  - right. split; [reflexivity|].
    destruct direction; cbn [andb] in H.
    + injection H as <-. right. right. split; [now left|reflexivity].
    + destruct (magnitude >? 0) eqn:G.
      * apply Z.gtb_lt in G.
        destruct (isGameEnd _) as [[|]| |]; cbn [bind] in H;
          try discriminate; injection H as <-.
        -- left. repeat split; try reflexivity. lia.
        -- right. left. repeat split; try reflexivity. lia.
      * injection H as <-. right. right. split; [|reflexivity].
        right. rewrite Z.gtb_ltb in G. apply Z.ltb_ge in G. lia.
  - left. injection H as <-. now split.
Qed.

Lemma tryRotate_collision s rotated dx dy b c :
  block s = Some b ->
  tryRotate s rotated dx dy = Ok c ->
  isCollision (grid s) (mkBlock rotated (color b))
    (blockX s + dx) (blockY s + dy) = Ok (negb c).
Proof.
  unfold tryRotate, theBlock. intros ->. cbn [bind].
  destruct (isCollision _ _ _ _) as [k| |]; cbn [bind]; try discriminate.
  intros [= <-]. now rewrite negb_involutive.
Qed.

Lemma Rotate_apply_inv (s s' : State) :
  Rotate_apply s = Ok s' ->
  exists b rotated,
    block s = Some b /\ rotateMatrix (shape b) = Ok rotated /\
    let hits o := isCollision (grid s) (mkBlock rotated (color b))
                    (blockX s + fst o) (blockY s + snd o) in
    (Forall (fun o => hits o = Ok true) rotationOffsets /\ s' = s)
    \/ exists before o after,
         rotationOffsets = before ++ o :: after /\
         Forall (fun o' => hits o' = Ok true) before /\
         hits o = Ok false /\
         s' = {| block := Some (mkBlock rotated (color b));
                 blockX := blockX s + fst o;
                 blockY := blockY s + snd o;
                 grid := grid s; nextBlock := nextBlock s; RNG := RNG s;
                 score := score s; level := level s;
                 highScore := highScore s; gameEnd := gameEnd s |}.
Proof.
  unfold Rotate_apply, theBlock.
  destruct (block s) as [b|] eqn:B; cbn [bind]; [|discriminate].
  destruct (rotateMatrix (shape b)) as [rotated| |] eqn:R; cbn [bind];
    try discriminate.
  unfold tryRotationOffsets. fold rotationOffsets.
  destruct (findM _ rotationOffsets) as [[o|]| |] eqn:F; cbn [bind];
    try discriminate; intros [= <-]; exists b, rotated;
    (split; [reflexivity|]); (split; [exact R|]); cbn zeta.
  - right. apply findM_some in F as (before & after & E & Po & Pb).
    exists before, o, after. split; [assumption|]. split.
    + eapply Forall_impl; [|exact Pb]. intros o' H.
      apply (tryRotate_collision s rotated _ _ b false B H).
    + split; [apply (tryRotate_collision s rotated _ _ b true B Po)|].
      unfold updateState. now rewrite B.
  - left. split; [|reflexivity]. apply findM_none in F.
    eapply Forall_impl; [|exact F]. intros o' H.
    apply (tryRotate_collision s rotated _ _ b false B H).
Qed.

(** X9. [Rotate.apply] tries the offsets (0,0), (1,0), (-1,0), (0,1),
    (0,-1) in this order on the rotated shape: it returns the state with
    the rotated shape moved by the first offset at which there is no
    collision, every other field unchanged, and the state itself when the
    rotated shape collides at all five. *)
Theorem Rotate_apply_spec (s s' : State) :
  Rotate_apply s = Ok s' ->
  exists b rotated,
    block s = Some b /\ rotateMatrix (shape b) = Ok rotated /\
    let hits o := isCollision (grid s) (mkBlock rotated (color b))
                    (blockX s + fst o) (blockY s + snd o) in
    (Forall (fun o => hits o = Ok true) rotationOffsets /\ s' = s)
    \/ exists before o after,
         rotationOffsets = before ++ o :: after /\
         Forall (fun o' => hits o' = Ok true) before /\
         hits o = Ok false /\
         s' = {| block := Some (mkBlock rotated (color b));
                 blockX := blockX s + fst o;
                 blockY := blockY s + snd o;
                 grid := grid s; nextBlock := nextBlock s; RNG := RNG s;
                 score := score s; level := level s;
                 highScore := highScore s; gameEnd := gameEnd s |}.
Proof. exact (Rotate_apply_inv s s'). Qed.

Lemma Rotate_apply_spec_witness :
  exists b rotated,
    block freshO = Some b /\ rotateMatrix (shape b) = Ok rotated /\
    let hits o := isCollision (grid freshO) (mkBlock rotated (color b))
                    (blockX freshO + fst o) (blockY freshO + snd o) in
    (Forall (fun o => hits o = Ok true) rotationOffsets /\ freshO = freshO)
    \/ exists before o after,
         rotationOffsets = before ++ o :: after /\
         Forall (fun o' => hits o' = Ok true) before /\
         hits o = Ok false /\
         freshO = {| block := Some (mkBlock rotated (color b));
                     blockX := blockX freshO + fst o;
                     blockY := blockY freshO + snd o;
                     grid := grid freshO; nextBlock := nextBlock freshO;
                     RNG := RNG freshO;
                     score := score freshO; level := level freshO;
                     highScore := highScore freshO;
                     gameEnd := gameEnd freshO |}.
Proof. apply (Rotate_apply_spec freshO freshO). reflexivity. Defined.

(** ** The states of a game *)

Lemma shapes_good (b : Block) :
  In b shapes -> square (shape b) /\ hasFilled (shape b) = true.
Proof.
  intros H. cbn in H.
  repeat (destruct H as [<-|H];
          [split; [repeat constructor|reflexivity]|]).
  contradiction.
Qed.

Lemma drawn_good (r : RNG.t) :
  0 <= RNG.seed r < 2147483647 -> goodBlock (fst (randomBlock r)).
Proof.
  intros H. destruct r as [seed]. cbn in H.
  destruct (randomBlock_defined seed H) as (b & E & Hin).
  exists b. split; [assumption|]. now apply shapes_good.
Qed.

Lemma next_seed (r : RNG.t) :
  0 <= RNG.seed r -> 0 <= RNG.seed (snd (randomBlock r)) < 2147483647.
Proof.
  intros H. cbn. now apply hash_below.
Qed.

Lemma no_truthy_not_full (row : list Cell) :
  Z.of_nat (List.length row) = Constants.GRID_WIDTH ->
  existsb truthy row = false -> fullRow row = false.
Proof.
  destruct row as [|c row]; [discriminate|]. cbn.
  intros _ H. apply orb_false_iff in H as [-> _]. reflexivity.
Qed.

(** The grid after a landing that does not end the game. *)
Lemma cleared_grid_settled (burned : Grid) :
  Z.of_nat (List.length burned) = Constants.GRID_HEIGHT ->
  Forall (fun row => Z.of_nat (List.length row) = Constants.GRID_WIDTH)
    burned ->
  isGameEnd burned = Ok false ->
  let g := updateGridAfterClearance burned (linesCleared burned) in
  Z.of_nat (List.length g) = Constants.GRID_HEIGHT
  /\ Forall (fun row => Z.of_nat (List.length row) = Constants.GRID_WIDTH) g
  /\ isGameEnd g = Ok false
  /\ Forall (fun row => fullRow row = false) g.
Proof.
  intros L W T g.
  assert (Lg : List.length g = List.length burned).
  { apply updateGridAfterClearance_length, linesCleared_ascending. }
  assert (E : g = repeat emptyRow (List.length (filter fullRow burned))
                    ++ filter (fun r => negb (fullRow r)) burned)
    by apply clear_full_rows.
  split; [now rewrite Lg|].
  split; [|split].
  - rewrite E. apply Forall_app. split.
    + apply Forall_forall. intros r Hr. apply repeat_spec in Hr. now subst.
    + apply Forall_forall. intros r Hr. apply filter_In in Hr as [Hr _].
      rewrite Forall_forall in W. now apply W.
  - rewrite E. destruct (List.length (filter fullRow burned)); [|reflexivity].
    cbn [repeat app].
    destruct burned as [|row0 rest]; [discriminate|].
    cbn in T. injection T as T. inversion W as [|? ? W0 _]; subst.
    cbn [filter]. rewrite (no_truthy_not_full row0 W0 T). cbn.
    now rewrite T.
  - rewrite E. apply Forall_app. split.
    + apply Forall_forall. intros r Hr. apply repeat_spec in Hr. now subst.
    + apply Forall_forall. intros r Hr. apply filter_In in Hr as [_ Hr].
      now apply negb_true_iff.
Qed.

Lemma updateGrid_shape (g : Grid) (b : Block) (x y : Z) :
  Z.of_nat (List.length g) = Constants.GRID_HEIGHT ->
  Forall (fun row => Z.of_nat (List.length row) = Constants.GRID_WIDTH) g ->
  Z.of_nat (List.length (updateGrid g b x y)) = Constants.GRID_HEIGHT
  /\ Forall (fun row => Z.of_nat (List.length row) = Constants.GRID_WIDTH)
       (updateGrid g b x y).
Proof.
  intros L W. split.
  - now rewrite (proj1 (updateGrid_nth g b x y)).
  - assert (W' : Forall (fun row => List.length row = 10%nat) g).
    { eapply Forall_impl; [|exact W]. cbn. unfold Constants.GRID_WIDTH.
      intros; lia. }
    eapply Forall_impl; [|exact (updateGrid_rows g b x y 10 W')].
    cbn. unfold Constants.GRID_WIDTH. intros; lia.
Qed.

Lemma wellFormed_initial (ms : Z) : 0 <= ms -> wellFormed (initialState ms).
Proof.
  intros H. unfold wellFormed, initialState, initial_RNG, RNG.fresh.
  cbn [grid block nextBlock RNG].
  pose proof (proj1 (hash_below ms H)) as R0.
  split; [reflexivity|]. split; [repeat constructor|].
  split; [reflexivity|]. split; [repeat constructor|].
  split; [now apply drawn_good|].
  split.
  - apply drawn_good. apply next_seed. cbn. lia.
  - apply next_seed. cbn. apply hash_below. lia.
Qed.

Lemma wellFormed_tick (ms : Z) fuel s action s' :
  0 <= ms -> wellFormed s -> tick ms fuel s action = Ok s' -> wellFormed s'.
Proof.
  intros Hms WF T.
  assert (M : forall d m, Move_apply d m s = Ok s' -> wellFormed s').
  { intros d m H. apply Move_apply_inv in H as (b & B & H).
    cbn zeta in H. destruct (moveBlock s d m) as [x y].
    destruct H as [[_ ->]|[_ [(_ & _ & _ & ->)|[(_ & _ & T' & ->)|[_ ->]]]]];
      try exact WF.
    destruct WF as (L & W & _ & _ & _ & N & S).
    destruct (updateGrid_shape (grid s) b (blockX s) (blockY s) L W)
      as [Lb Wb].
    destruct (cleared_grid_settled _ Lb Wb T') as (L' & W' & T2 & F').
    unfold wellFormed, landed, scoreUpdates.
    cbn [grid block nextBlock RNG].
    repeat split; try assumption.
    - apply drawn_good. lia.
    - apply next_seed. lia.
    - apply next_seed. lia. }
  destruct action as [d m| | |]; cbn [tick] in T.
  - now apply (M d m).
  - apply Rotate_apply_inv in T as (b & rotated & B & R & T).
    cbn zeta in T.
    destruct T as [[_ ->]|(before & o & after & _ & _ & _ & ->)];
      [exact WF|].
    destruct WF as (L & W & T' & F & (b0 & B0 & Sq & HF) & N & S).
    rewrite B in B0. injection B0 as <-.
    destruct (turn_of_square (shape b) Sq)
      as (m1 & _ & _ & R1 & Sq1 & _ & _ & HF1 & _).
    rewrite R in R1. injection R1 as <-.
    unfold wellFormed. cbn [grid block nextBlock RNG].
    do 4 (split; [assumption|]). split; [|now split].
    exists (mkBlock rotated (color b)). split; [reflexivity|].
    split; [exact Sq1|]. cbn [shape]. congruence.
  - injection T as <-. pose proof (wellFormed_initial ms Hms) as WI.
    destruct WI as (L & W & T' & F & Bk & N & _).
    destruct WF as (_ & _ & _ & _ & _ & _ & S).
    unfold wellFormed, Restart_apply. cbn [grid block nextBlock RNG].
    repeat split; try assumption; apply next_seed; lia.
  - apply Drop_apply_only_moves in T as [->|(y & _ & ->)]; exact WF.
Qed.

Lemma wellFormed_reachable (ms : Z) (s : State) :
  0 <= ms -> reachable ms s -> wellFormed s.
Proof.
  intros Hms. induction 1 as [|s action fuel s' _ IH T].
  - now apply wellFormed_initial.
  - eapply wellFormed_tick; eauto.
Qed.

(** X10. In every state of a game (the clock read a millisecond that is
    not negative when the module was loaded) the grid has 20 rows of 10
    cells, its top row is free and none of its rows is full; the piece and
    the next piece are defined, square and not blank; and the seed is in
    [0, 2^31 - 2]. *)
Theorem reachable_wellFormed (ms : Z) (s : State) :
  0 <= ms -> reachable ms s ->
  List.length (grid s) = 20%nat
  /\ Forall (fun row => List.length row = 10%nat) (grid s)
  /\ (exists row0 rest, grid s = row0 :: rest /\ existsb truthy row0 = false)
  /\ Forall (fun row => fullRow row = false) (grid s)
  /\ goodBlock (block s) /\ goodBlock (nextBlock s)
  /\ 0 <= RNG.seed (RNG s) <= 2 ^ 31 - 2.
Proof.
  intros Hms R.
  destruct (wellFormed_reachable ms s Hms R) as (L & W & T & F & B & N & S).
  unfold Constants.GRID_HEIGHT, Constants.GRID_WIDTH in *.
  split; [lia|]. split; [|split; [|split; [exact F|]]].
  - eapply Forall_impl; [|exact W]. cbn. intros; lia.
  - destruct (grid s) as [|row0 rest]; [discriminate|].
    exists row0, rest. split; [reflexivity|]. cbn in T. congruence.
  - split; [exact B|]. split; [exact N|].
    change (2 ^ 31 - 2) with 2147483646. lia.
Qed.

Lemma reachable_wellFormed_witness :
  List.length (grid toppedOut) = 20%nat
  /\ Forall (fun row => List.length row = 10%nat) (grid toppedOut)
  /\ (exists row0 rest, grid toppedOut = row0 :: rest
                        /\ existsb truthy row0 = false)
  /\ Forall (fun row => fullRow row = false) (grid toppedOut)
  /\ goodBlock (block toppedOut) /\ goodBlock (nextBlock toppedOut)
  /\ 0 <= RNG.seed (RNG toppedOut) <= 2 ^ 31 - 2.
Proof.
  apply (reachable_wellFormed 1 toppedOut).
  - lia.
  - exact toppedOut_reachable.
Defined.

(** ** No action throws in a game *)

Lemma Move_apply_total direction magnitude s b :
  block s = Some b ->
  (Z.to_nat Constants.GRID_HEIGHT <= List.length (grid s))%nat ->
  exists s', Move_apply direction magnitude s = Ok s'.
Proof.
  intros B W. unfold Move_apply, moveBlock, theBlock. rewrite B. cbn [bind].
  destruct (isCollision_answers (grid s) b
              (blockX s + match direction with X => magnitude | Y => 0 end)
              (blockY s + match direction with Y => magnitude | X => 0 end) W)
    as [[|] E]; rewrite E; cbn [bind]; [|eauto].
  destruct (_ && _); [|eauto].
  destruct (updateGrid (grid s) b (blockX s) (blockY s)) as [|row0 rest] eqn:U.
  - exfalso.
    pose proof (proj1 (updateGrid_nth (grid s) b (blockX s) (blockY s))) as L.
    rewrite U in L. cbn in L. unfold Constants.GRID_HEIGHT in W. lia.
  - cbn. destruct (existsb truthy row0); eauto.
Qed.

Lemma Rotate_apply_total s b :
  block s = Some b -> square (shape b) ->
  (Z.to_nat Constants.GRID_HEIGHT <= List.length (grid s))%nat ->
  exists s', Rotate_apply s = Ok s'.
Proof.
  intros B Sq W. unfold Rotate_apply, theBlock. rewrite B. cbn [bind].
  rewrite (rotateMatrix_turned _ (square_fits _ Sq)). cbn [bind].
  destruct (findM_answers
              (fun offset => tryRotate s (turned (shape b))
                               (fst offset) (snd offset))
              rotationOffsets) as [r E].
  - intros o. unfold tryRotate, theBlock. rewrite B. cbn [bind].
    destruct (isCollision_answers (grid s)
                (mkBlock (turned (shape b)) (color b))
                (blockX s + fst o) (blockY s + snd o) W) as [c E].
    rewrite E. cbn. eauto.
  - unfold tryRotationOffsets. fold rotationOffsets. rewrite E. cbn [bind].
    destruct r; eauto.
Qed.

Lemma Drop_apply_total s b :
  block s = Some b -> hasFilled (shape b) = true ->
  (Z.to_nat Constants.GRID_HEIGHT <= List.length (grid s))%nat ->
  exists fuel0 s', forall fuel, (fuel0 <= fuel)%nat ->
                                Drop_apply fuel s = Ok s'.
Proof.
  intros B HF W.
  destruct (hasFilled_cell b HF) as (r & row & c & cell & Hr & Hc & F).
  set (n := Z.to_nat (Constants.GRID_HEIGHT - (blockY s + 1 + Z.of_nat r))).
  destruct (findNewY_first (grid s) b (blockX s) r row c cell W Hr Hc F
              n (blockY s)) as (y & R & _); [lia|].
  destruct (Move_apply_total Y (y - blockY s) s b B W) as [s' M].
  exists (S n), s'. intros fuel Hfuel.
  unfold Drop_apply, theBlock. rewrite B. cbn [bind].
  now rewrite (findNewY_more_fuel _ _ _ _ _ _ _ R Hfuel).
Qed.

(** X11. No action throws in a game: from every state of a game (clock
    reading not negative) each of Move, Rotate, Restart and Drop returns a
    state.  For Drop, that is with any depth of recursion from some depth
    on. *)
Theorem reachable_total (ms : Z) (s : State) (action : Action) :
  0 <= ms -> reachable ms s ->
  exists fuel0 s', forall fuel, (fuel0 <= fuel)%nat ->
                                tick ms fuel s action = Ok s'.
Proof.
  intros Hms R.
  destruct (wellFormed_reachable ms s Hms R)
    as (L & _ & _ & _ & (b & B & Sq & HF) & _).
  assert (W : (Z.to_nat Constants.GRID_HEIGHT <= List.length (grid s))%nat)
    by lia.
  destruct action as [d m| | |]; cbn [tick].
  - destruct (Move_apply_total d m s b B W) as [s' E].
    exists 0%nat, s'. now intros.
  - destruct (Rotate_apply_total s b B Sq W) as [s' E].
    exists 0%nat, s'. now intros.
  - exists 0%nat, (Restart_apply ms s). now intros.
  - now apply (Drop_apply_total s b).
Qed.

Lemma reachable_total_witness :
  exists fuel0 s', forall fuel, (fuel0 <= fuel)%nat ->
                                tick 1 fuel toppedOut Drop = Ok s'.
Proof.
  apply (reachable_total 1 toppedOut Drop).
  - lia.
  - exact toppedOut_reachable.
Defined.

(** ** Drop, and the tick after it *)

Lemma findNewY_stops fuel g b x y0 y :
  findNewY fuel g b x y0 = Ok y -> isCollision g b x (y + 1) = Ok true.
Proof.
  revert y0. induction fuel as [|fuel IH]; intros y0 H; [discriminate|].
  cbn in H. destruct (isCollision g b x (y0 + 1)) as [[|]| |] eqn:E;
    cbn in H; try discriminate.
  - now injection H as <-.
  - eapply IH; eauto.
Qed.

Lemma findNewY_from fuel g b x y0 y :
  findNewY fuel g b x y0 = Ok y -> y0 <= y.
Proof.
  intros H. apply findNewY_free in H as [->|[L _]]; lia.
Qed.

(** X12. When [Drop.apply] returns, it returns the state with the piece
    moved straight down (possibly not at all) and nothing else changed;
    there the piece collides one step further down.  So Drop does not burn
    the piece: a second Drop returns the same state, and it is the next
    Move('y', 1) that takes the landing branch (end of the game, or burn,
    clearing and next piece). *)
Theorem Drop_rests (fuel : nat) (s s' : State) (b : Block) :
  block s = Some b ->
  Drop_apply fuel s = Ok s' ->
  s' = moveTo s (blockX s) (blockY s') /\ blockY s <= blockY s' /\
  isCollision (grid s') b (blockX s') (blockY s' + 1) = Ok true /\
  Drop_apply fuel s' = Ok s' /\
  Move_apply Y 1 s'
  = (ended <- isGameEnd (updateGrid (grid s') b (blockX s') (blockY s')) ;;
     if ended then Ok (endGame s')
     else Ok (landed s' (updateGrid (grid s') b (blockX s') (blockY s')))).
Proof.
  intros B H.
  assert (K : exists y c,
             findNewY fuel (grid s) b (blockX s) (blockY s) = Ok y /\
             s' = moveTo s (blockX s) y /\
             isCollision (grid s) b (blockX s) y = Ok c).
  { unfold Drop_apply, theBlock in H. rewrite B in H. cbn [bind] in H.
    destruct (findNewY _ _ _ _ _) as [y| |] eqn:F; cbn [bind] in H;
      try discriminate.
    exists y.
    unfold Move_apply, moveBlock, theBlock in H. rewrite B in H.
    cbn [bind] in H. rewrite Z.add_0_r in H.
    replace (blockY s + (y - blockY s)) with y in H by lia.
    destruct (isCollision (grid s) b (blockX s) y) as [[|]| |] eqn:C;
      cbn [bind] in H; try discriminate.
    - exists true. split; [reflexivity|]. split; [|reflexivity].
      apply findNewY_free in F as [->|[_ C']]; [|congruence].
      rewrite Z.sub_diag in H. cbn in H. injection H as <-.
      symmetry. apply moveTo_same.
    - exists false. injection H as <-. now repeat split. }
  destruct K as (y & c & F & -> & C).
  pose proof (findNewY_stops _ _ _ _ _ _ F) as Stop.
  pose proof (findNewY_from _ _ _ _ _ _ F) as From.
  cbn [moveTo blockX blockY grid].
  split; [reflexivity|]. split; [assumption|]. split; [assumption|].
  split.
  - unfold Drop_apply, theBlock. cbn [moveTo block blockX blockY grid bind].
    rewrite B. cbn [bind].
    destruct fuel as [|fuel]; [discriminate|].
    cbn [findNewY]. rewrite Stop. cbn [bind].
    unfold Move_apply, moveBlock, theBlock.
    cbn [moveTo block blockX blockY grid bind]. rewrite B. cbn [bind].
    rewrite Z.sub_diag, !Z.add_0_r, C. cbn [bind].
    destruct c; cbn; reflexivity.
  - unfold Move_apply, moveBlock, theBlock.
    cbn [moveTo block blockX blockY grid bind]. rewrite B. cbn [bind].
    rewrite Z.add_0_r, Stop. cbn [bind andb]. reflexivity.
Qed.

Lemma Drop_rests_witness :
  exists s',
    Drop_apply 19 freshO = Ok s' /\
    s' = moveTo freshO (blockX freshO) (blockY s') /\
    blockY freshO <= blockY s' /\
    isCollision (grid s') pieceO (blockX s') (blockY s' + 1) = Ok true /\
    Drop_apply 19 s' = Ok s' /\
    Move_apply Y 1 s'
    = (ended <- isGameEnd (updateGrid (grid s') pieceO (blockX s')
                             (blockY s')) ;;
       if ended then Ok (endGame s')
       else Ok (landed s' (updateGrid (grid s') pieceO (blockX s')
                             (blockY s')))).
Proof.
  exists (moveTo freshO 3 18). split; [reflexivity|].
  apply (Drop_rests 19 freshO (moveTo freshO 3 18) pieceO); reflexivity.
Defined.

(** ** Scores along a game *)

Lemma scores_tick (ms : Z) fuel s action s' :
  tick ms fuel s action = Ok s' ->
  highScore s <= highScore s'
  /\ (isRestart action = false ->
      score s <= score s' /\ exists n, 0 <= n /\ score s' = score s + n * 100).
Proof.
  intros T.
  assert (M : s' = s \/ s' = endGame s \/ (exists x y, s' = moveTo s x y)
              \/ (exists newGrid, s' = landed s newGrid) ->
              highScore s <= highScore s'
              /\ score s <= score s'
              /\ exists n, 0 <= n /\ score s' = score s + n * 100).
  { intros [->|[->|[(x & y & ->)|(g & ->)]]];
      try (cbn; split; [lia|split; [lia|exists 0; lia]]).
    destruct (landed_scores s g) as (n & Hn & S & _ & Hs & _).
    rewrite Hs, S. split; [lia|]. split; [lia|]. exists n. lia. }
  destruct action as [d m| | |]; cbn [tick] in T.
  - apply Move_apply_cases in T. apply M in T. tauto.
  - apply Rotate_apply_cases in T as [->|(r & dx & dy & ->)]; cbn;
      (split; [lia|]); intros _; (split; [lia|]); exists 0; lia.
  - injection T as <-. cbn. split; [lia|discriminate].
  - apply Drop_apply_cases in T. apply M in T. tauto.
Qed.

(** X13. Along any sequence of actions the high score never decreases;
    along a sequence without Restart the score never decreases either, and
    it grows by a multiple of 100. *)
Theorem scores_never_decrease (ms : Z) (fuel : nat) (actions : list Action)
  (s s' : State) :
  run ms fuel s actions = Ok s' ->
  highScore s <= highScore s'
  /\ (forallb (fun a => negb (isRestart a)) actions = true ->
      score s <= score s'
      /\ exists n, 0 <= n /\ score s' = score s + n * 100).
Proof.
  revert s. induction actions as [|a rest IH]; intros s H; cbn in H.
  - injection H as <-. split; [lia|]. intros _. split; [lia|].
    exists 0. lia.
  - destruct (tick ms fuel s a) as [s1| |] eqn:T; cbn in H; try discriminate.
    destruct (scores_tick _ _ _ _ _ T) as [H1 S1].
    destruct (IH _ H) as [H2 S2]. split; [lia|].
    intros NR. cbn in NR. apply andb_prop in NR as [Na NR].
    apply negb_true_iff in Na.
    destruct (S1 Na) as (L1 & n1 & P1 & E1).
    destruct (S2 NR) as (L2 & n2 & P2 & E2).
    split; [lia|]. exists (n1 + n2). lia.
Qed.

Lemma scores_never_decrease_witness :
  exists s', run 1 30 restingO [Move Y 1; Move X 1; Drop] = Ok s'
             /\ highScore restingO <= highScore s'
             /\ score restingO <= score s'.
Proof.
  eexists. split; [vm_compute; reflexivity|].
  destruct (scores_never_decrease 1 30 [Move Y 1; Move X 1; Drop] restingO
              _ eq_refl) as [H S].
  split; [exact H|]. apply S. reflexivity.
Defined.

Lemma hundreds_reachable (ms : Z) (s : State) :
  reachable ms s -> exists k, 0 <= k /\ score s = 100 * k.
Proof.
  induction 1 as [|s action fuel s' _ IH T].
  - exists 0. cbn. lia.
  - destruct IH as (k & Hk & E).
    destruct (scores_tick _ _ _ _ _ T) as [_ S].
    destruct action as [d m| | |];
      try (destruct (S eq_refl) as (_ & n & Hn & E'); exists (k + n); lia).
    cbn in T. injection T as <-. exists 0. cbn. lia.
Qed.

(** X14. In every state of a game the score is a multiple of 100 that is
    not negative, the level is at least 1 and determined by the score, and
    the interval between two ticks that main.ts derives from the level is
    [max(100, 400 - 100 * floor(score / 1000))] ms: between 100 and 400,
    and 100 from a score of 3000 on. *)
Theorem reachable_score_and_tick_rate (ms : Z) (s : State) :
  reachable ms s ->
  (exists k, 0 <= k /\ score s = 100 * k)
  /\ 1 <= level s
  /\ tickRate s = Z.max 100 (400 - 100 * (score s / 1000))
  /\ Constants.MIN_TICK_RATE_MS <= tickRate s <= 400
  /\ (3000 <= score s -> tickRate s = Constants.MIN_TICK_RATE_MS).
Proof.
  intros R. destruct (bookkeeping_reachable ms s R) as (P & L & _).
  pose proof (Z.div_pos (score s) 1000 P ltac:(lia)) as D.
  assert (T : tickRate s = Z.max 100 (400 - 100 * (score s / 1000))).
  { unfold tickRate, Constants.TICK_RATE_DECREMENT_MS, Constants.TICK_RATE_MS,
      Constants.MIN_TICK_RATE_MS.
    rewrite L. destruct (_ >=? _) eqn:E; rewrite Z.geb_leb in E.
    - apply Z.leb_le in E. lia.
    - apply Z.leb_gt in E. lia. }
  split; [now apply (hundreds_reachable ms)|].
  split; [lia|]. split; [exact T|].
  unfold Constants.MIN_TICK_RATE_MS. split; [lia|].
  intros Big.
  assert (3 <= score s / 1000) by (apply Z.div_le_lower_bound; lia). lia.
Qed.

Lemma reachable_score_and_tick_rate_witness :
  (exists k, 0 <= k /\ score toppedOut = 100 * k)
  /\ 1 <= level toppedOut
  /\ tickRate toppedOut = Z.max 100 (400 - 100 * (score toppedOut / 1000))
  /\ Constants.MIN_TICK_RATE_MS <= tickRate toppedOut <= 400
  /\ (3000 <= score toppedOut
      -> tickRate toppedOut = Constants.MIN_TICK_RATE_MS).
Proof.
  apply (reachable_score_and_tick_rate 1 toppedOut).
  exact toppedOut_reachable.
Defined.

(** ** Collisions and burns together *)

Lemma shapeFilledAt_nat (sh : Shape) (r c : nat) row cell :
  nth_error sh r = Some row -> nth_error row c = Some cell ->
  shapeFilledAt sh (Z.of_nat r) (Z.of_nat c) = filled cell.
Proof.
  intros Hr Hc. unfold shapeFilledAt.
  now rewrite lookupZ_nat, Hr, lookupZ_nat, Hc.
Qed.

Lemma occupied_emptyGrid (gy gx : Z) : occupied emptyGrid gy gx = false.
Proof.
  unfold occupied, lookupZ.
  destruct (gy <? 0); [reflexivity|].
  destruct (nth_error emptyGrid (Z.to_nat gy)) as [row|] eqn:E;
    [|reflexivity].
  apply nth_error_In, repeat_spec in E. subst row.
  destruct (gx <? 0); [reflexivity|].
  destruct (nth_error emptyRow (Z.to_nat gx)) as [c|] eqn:E; [|reflexivity].
  apply nth_error_In, repeat_spec in E. now subst c.
Qed.

(** X15. On the empty grid a piece collides exactly when one of its
    filled cells is outside the board. *)
Theorem isCollision_emptyGrid (b : Block) (x y : Z) :
  isCollision emptyGrid b x y = Ok true <->
  exists r c : nat,
    shapeFilledAt (shape b) (Z.of_nat r) (Z.of_nat c) = true /\
    (x + Z.of_nat c < 0 \/ 10 <= x + Z.of_nat c \/
     y + Z.of_nat r < 0 \/ 20 <= y + Z.of_nat r).
Proof.
  assert (W : (Z.to_nat Constants.GRID_HEIGHT <= List.length emptyGrid)%nat)
    by (apply Nat.leb_le; reflexivity).
  rewrite (isCollision_cells emptyGrid b x y W).
  unfold Constants.GRID_WIDTH, Constants.GRID_HEIGHT.
  split; intros (r & c & F & H); exists r, c; (split; [assumption|]).
  - rewrite occupied_emptyGrid in H.
    destruct H as [H|[H|[H|[H|H]]]]; try discriminate; tauto.
  - tauto.
Qed.

(** X16. A piece burned where it was free blocks that place: on a grid of
    20 rows of 10 cells, if a piece with a filled cell and a colour other
    than the empty string does not collide at (x, y), then on the grid
    burned at (x, y) it collides at (x, y). *)
Theorem burned_piece_blocks (g : Grid) (b : Block) (x y : Z) :
  List.length g = 20%nat ->
  Forall (fun row => List.length row = 10%nat) g ->
  hasFilled (shape b) = true ->
  color b <> "" ->
  isCollision g b x y = Ok false ->
  isCollision (updateGrid g b x y) b x y = Ok true.
Proof.
  intros L W HF Col Free.
  assert (Wg : (Z.to_nat Constants.GRID_HEIGHT <= List.length g)%nat)
    by (unfold Constants.GRID_HEIGHT; lia).
  destruct (hasFilled_cell b HF) as (r & row & c & cell & Hr & Hc & F).
  pose proof (shapeFilledAt_nat _ _ _ _ _ Hr Hc) as SF. rewrite F in SF.
  assert (Inside : ~ (x + Z.of_nat c < 0 \/ 10 <= x + Z.of_nat c \/
                      y + Z.of_nat r < 0 \/ 20 <= y + Z.of_nat r)).
  { intros Out.
    assert (T : isCollision g b x y = Ok true); [|congruence].
    apply (isCollision_cells g b x y Wg). exists r, c.
    unfold Constants.GRID_WIDTH, Constants.GRID_HEIGHT.
    split; [assumption|tauto]. }
  assert (Bx : 0 <= x + Z.of_nat c < 10) by lia.
  assert (By : 0 <= y + Z.of_nat r < 20) by lia.
  apply isCollision_cells.
  - rewrite (proj1 (updateGrid_nth g b x y)). exact Wg.
  - exists r, c. split; [assumption|]. do 4 right.
    unfold occupied, lookupZ.
    destruct (y + Z.of_nat r <? 0) eqn:N; [apply Z.ltb_lt in N; lia|].
    destruct (x + Z.of_nat c <? 0) eqn:N'; [apply Z.ltb_lt in N'; lia|].
    destruct (nth_error g (Z.to_nat (y + Z.of_nat r))) as [grow|] eqn:G;
      [|apply nth_error_None in G; lia].
    assert (Lg : List.length grow = 10%nat).
    { rewrite Forall_forall in W. apply W. eapply nth_error_In; eauto. }
    destruct (nth_error grow (Z.to_nat (x + Z.of_nat c))) as [cl|] eqn:C;
      [|apply nth_error_None in C; lia].
    destruct (proj2 (updateGrid_nth g b x y) _ _ G) as (row' & R' & _ & Cells).
    rewrite R', (Cells _ _ C).
    replace (Z.of_nat (Z.to_nat (y + Z.of_nat r)) - y) with (Z.of_nat r) by lia.
    replace (Z.of_nat (Z.to_nat (x + Z.of_nat c)) - x) with (Z.of_nat c) by lia.
    rewrite SF. cbn. apply negb_true_iff. now apply String.eqb_neq.
Qed.

Lemma burned_piece_blocks_witness :
  isCollision (updateGrid emptyGrid pieceO 3 18) pieceO 3 18 = Ok true.
Proof.
  apply (burned_piece_blocks emptyGrid pieceO 3 18).
  - reflexivity.
  - repeat constructor.
  - reflexivity.
  - discriminate.
  - reflexivity.
Defined.

(** ** Where the piece is *)

Lemma free_inside (g : Grid) (b : Block) (x y : Z) :
  (Z.to_nat Constants.GRID_HEIGHT <= List.length g)%nat ->
  isCollision g b x y = Ok false -> insideBoard b x y.
Proof.
  intros W Free r c F.
  assert (Inside : ~ (x + Z.of_nat c < 0
                      \/ Constants.GRID_WIDTH <= x + Z.of_nat c
                      \/ y + Z.of_nat r < 0
                      \/ Constants.GRID_HEIGHT <= y + Z.of_nat r)).
  { intros Out.
    assert (T : isCollision g b x y = Ok true); [|congruence].
    apply (isCollision_cells g b x y W). exists r, c.
    split; [assumption|tauto]. }
  lia.
Qed.

Lemma catalogue_inside (b : Block) :
  In b shapes -> insideBoard b Constants.STARTING_BLOCK_X 0.
Proof.
  intros H. apply (free_inside emptyGrid).
  - apply Nat.leb_le. reflexivity.
  - cbn in H. repeat (destruct H as [<-|H]; [reflexivity|]). contradiction.
Qed.

Lemma drawn_catalogue (r : RNG.t) :
  0 <= RNG.seed r < 2147483647 ->
  exists nb, fst (randomBlock r) = Some nb /\ In nb shapes.
Proof.
  intros H. destruct r as [seed]. now apply randomBlock_defined.
Qed.

Lemma Drop_apply_is_move fuel s s' :
  Drop_apply fuel s = Ok s' -> exists m, Move_apply Y m s = Ok s'.
Proof.
  unfold Drop_apply.
  destruct (theBlock s) as [b| |]; cbn [bind]; try discriminate.
  destruct (findNewY _ _ _ _ _) as [y| |]; cbn [bind]; try discriminate.
  eauto.
Qed.

Lemma placed_initial (ms : Z) : 0 <= ms -> placed (initialState ms).
Proof.
  intros H. unfold placed, initialState, initial_RNG, RNG.fresh.
  cbn [block nextBlock blockX blockY].
  pose proof (proj1 (hash_below ms H)) as R0.
  destruct (drawn_catalogue (RNG.mk (RNG.hash ms)) R0) as (b & E & Hin).
  split.
  - exists b. split; [assumption|]. now apply catalogue_inside.
  - apply drawn_catalogue. apply next_seed. cbn. lia.
Qed.

Lemma placed_tick (ms : Z) fuel s action s' :
  0 <= ms -> wellFormed s -> placed s ->
  tick ms fuel s action = Ok s' -> placed s'.
Proof.
  intros Hms WF P T.
  destruct WF as (L & _ & _ & _ & _ & _ & S).
  assert (W : (Z.to_nat Constants.GRID_HEIGHT <= List.length (grid s))%nat)
    by lia.
  assert (M : forall d m, Move_apply d m s = Ok s' -> placed s').
  { intros d m H. apply Move_apply_inv in H as (b & B & H).
    cbn zeta in H. destruct (moveBlock s d m) as [x y].
    destruct H as [[Free ->]|[_ [(_ & _ & _ & ->)|[(_ & _ & _ & ->)|[_ ->]]]]];
      try exact P.
    - destruct P as [_ N]. split; [|exact N].
      exists b. split; [exact B|]. cbn. now apply (free_inside (grid s)).
    - destruct P as [_ (nb & N & Hin)]. unfold placed, landed, scoreUpdates.
      cbn [block nextBlock blockX blockY]. split.
      + exists nb. split; [exact N|]. now apply catalogue_inside.
      + apply drawn_catalogue. lia. }
  destruct action as [d m| | |]; cbn [tick] in T.
  - now apply (M d m).
  - apply Rotate_apply_inv in T as (b & rotated & B & R & T).
    cbn zeta in T.
    destruct T as [[_ ->]|(before & o & after & _ & _ & Free & ->)];
      [exact P|].
    destruct P as [_ N]. split; [|exact N].
    eexists. split; [reflexivity|]. cbn [blockX blockY].
    now apply (free_inside (grid s)).
  - injection T as <-. destruct (placed_initial ms Hms) as [B N].
    split; [exact B|exact N].
  - apply Drop_apply_is_move in T as [m T]. now apply (M Y m).
Qed.

Lemma placed_reachable (ms : Z) (s : State) :
  0 <= ms -> reachable ms s -> placed s.
Proof.
  intros Hms. induction 1 as [|s action fuel s' R IH T].
  - now apply placed_initial.
  - eapply placed_tick; eauto. now apply (wellFormed_reachable ms).
Qed.

(** X17. In every state of a game the piece lies on the board: each of
    its filled cells is at a column 0..9 and a row 0..19 (it may overlap
    occupied cells right after it appeared).  The next piece is a piece of
    the catalogue, not rotated. *)
Theorem reachable_piece_on_board (ms : Z) (s : State) :
  0 <= ms -> reachable ms s ->
  (exists b, block s = Some b /\
     forall r c : nat,
       shapeFilledAt (shape b) (Z.of_nat r) (Z.of_nat c) = true ->
       0 <= blockX s + Z.of_nat c <= 9 /\ 0 <= blockY s + Z.of_nat r <= 19)
  /\ exists nb, nextBlock s = Some nb /\ In nb shapes.
Proof.
  intros Hms R. destruct (placed_reachable ms s Hms R) as [(b & B & I) N].
  split; [|exact N]. exists b. split; [exact B|].
  intros r c F. specialize (I r c F).
  unfold Constants.GRID_WIDTH, Constants.GRID_HEIGHT in I. lia.
Qed.

Lemma reachable_piece_on_board_witness :
  (exists b, block toppedOut = Some b /\
     forall r c : nat,
       shapeFilledAt (shape b) (Z.of_nat r) (Z.of_nat c) = true ->
       0 <= blockX toppedOut + Z.of_nat c <= 9
       /\ 0 <= blockY toppedOut + Z.of_nat r <= 19)
  /\ exists nb, nextBlock toppedOut = Some nb /\ In nb shapes.
Proof.
  apply (reachable_piece_on_board 1 toppedOut).
  - lia.
  - exact toppedOut_reachable.
Defined.

(** ** The last tick of the game played above *)

(** The branch of the end of the game in play: before the last tick of the
    game that starts when the clock reads 1 ms the O piece is at (3, 0)
    over the pile; the tick collides, the burned grid has its top row
    occupied, and the state returned, [toppedOut], has the grid without
    the piece. *)
Lemma game_over_in_play_drops_burn :
  reachable 1 beforeTopOut /\
  gameEnd beforeTopOut = false /\
  block beforeTopOut = Some pieceO /\
  isCollision (grid beforeTopOut) pieceO
    (blockX beforeTopOut) (blockY beforeTopOut + 1) = Ok true /\
  isGameEnd (updateGrid (grid beforeTopOut) pieceO
               (blockX beforeTopOut) (blockY beforeTopOut)) = Ok true /\
  Move_apply Y 1 beforeTopOut = Ok toppedOut /\
  grid toppedOut = grid beforeTopOut /\
  grid toppedOut <> updateGrid (grid beforeTopOut) pieceO
                      (blockX beforeTopOut) (blockY beforeTopOut).
Proof.
  split.
  - apply (run_reachable 1 30 (firstn 21 playToTheTop) (initialState 1));
      [apply reach_init|]. vm_compute. reflexivity.
  - do 6 (split; [vm_compute; reflexivity|]).
    vm_compute. discriminate.
Qed.
